(** * NVMeshlet builder: bit-field codec, primitive cache and statistics

    A shallow embedding of [nvmeshlet_builder.hpp] (namespace [NVMeshlet]):
    the arbitrary-width bit-field codec ([setBitField], [getBitField]), the
    most-significant-bit helper ([findMSB], in both of its conditional
    compilation branches), the [PrimitiveCache] clustering kernel and the
    [Stats] aggregator.

    Conventions.  A [uint32_t] is a [Z] in [0, 2^32) and every arithmetic
    operation of the source is followed by its wrap-around ([wrap32]); a
    [size_t] is a [Z] wrapped at [2^64]; a [double] is a primitive binary64
    float.  The fixed-size arrays of the cache are lists; a store outside
    an array is a fault ([None]). *)

From Stdlib Require Import ZArith Lia List Bool String Floats.
From stdpp Require Import base option list.

Local Open Scope Z_scope.

(** ** Machine integers *)

Definition wrap32 (x : Z) : Z := x mod 2 ^ 32.
Definition wrap64 (x : Z) : Z := x mod 2 ^ 64.
Definition wrap8 (x : Z) : Z := x mod 2 ^ 8.

(** [std::max] on unsigned values. *)
Definition umax (a b : Z) : Z := if a <? b then b else a.

(** The compiler selects the body of [findMSB]: [_MSC_VER] defined or not. *)
Inductive Compiler := MSVC | GNUC.

(** What the source leaves to the target.  C++ gives no value to a 32-bit
    shift by 32 or more, nor to [__builtin_clz(0)]; a target still produces
    one.  [shl_over x c] and [shr_over x c] are the results of [x << c] and
    [x >> c] for [c >= 32], [clz_zero] is the result of [__builtin_clz(0)].
    The only law: shifting zero yields zero. *)
Class Target := {
  compiler : Compiler;
  shl_over : Z -> Z -> Z;
  shr_over : Z -> Z -> Z;
  clz_zero : Z;
  shl_over_zero : forall c, shl_over 0 c = 0
}.

(** x86: the shift count is taken modulo 32; [lzcnt] of zero is 32. *)
Definition x86_shl (x c : Z) : Z := wrap32 (Z.shiftl x (c mod 32)).
Definition x86_shr (x c : Z) : Z := Z.shiftr x (c mod 32).

Definition x86_shl_zero (c : Z) : x86_shl 0 c = 0 :=
  f_equal wrap32 (Z.shiftl_0_l (c mod 32)).

Definition gcc_x86 : Target :=
  {| compiler := GNUC; shl_over := x86_shl; shr_over := x86_shr;
     clz_zero := 32; shl_over_zero := x86_shl_zero |}.

Definition msvc_x86 : Target :=
  {| compiler := MSVC; shl_over := x86_shl; shr_over := x86_shr;
     clz_zero := 32; shl_over_zero := x86_shl_zero |}.

(** A target whose oversized shifts produce zero (ARM-like). *)
Definition gcc_arm : Target :=
  {| compiler := GNUC; shl_over := fun _ _ => 0; shr_over := fun _ _ => 0;
     clz_zero := 32; shl_over_zero := fun _ => eq_refl |}.

Section Machine.
Context {T : Target}.

(** [x << c] and [x >> c] on [uint32_t]. *)
Definition shl32 (x c : Z) : Z :=
  if c <? 32 then wrap32 (Z.shiftl x c) else shl_over x c.
Definition shr32 (x c : Z) : Z :=
  if c <? 32 then Z.shiftr x c else shr_over x c.

(** [(1 << n) - 1], computed on [int] and converted to [uint32_t]. *)
Definition low_mask (n : Z) : Z := wrap32 (shl32 1 n - 1).

(** ** Bit-field codec *)

(** [bits[i] |= x]; a store outside the array is a fault. *)
Definition or_word (bits : list Z) (i x : Z) : option (list Z) :=
  w ← bits !! Z.to_nat i;
  Some (<[Z.to_nat i := Z.lor w x]> bits).

Definition setBitField (arraySize : Z) (bits : list Z)
    (width offset value : Z) : option (list Z) :=
  let idx := offset / 32 in
  let shiftLo := offset mod 32 in
  (* assert(idx < arraySize) *)
  if negb (idx <? arraySize) then None else
  let onlyLo := wrap32 (shiftLo + width) <=? 32 in
  let sizeLo := if onlyLo then width else wrap32 (32 - shiftLo) in
  let shiftHi := sizeLo in
  let retLo := shl32 value shiftLo in
  let retHi := shr32 value shiftHi in
  bits1 ← or_word bits idx retLo;
  if wrap32 (idx + 1) <? arraySize
  then or_word bits1 (wrap32 (idx + 1)) retHi
  else Some bits1.

Definition getBitField (arraySize : Z) (bits : list Z)
    (width offset : Z) : option Z :=
  let idx := offset / 32 in
  rawLo ← bits !! Z.to_nat idx;
  rawHi ← (if wrap32 (idx + 1) <? arraySize
           then bits !! Z.to_nat (wrap32 (idx + 1)) else Some 0);
  let shiftLo := offset mod 32 in
  let onlyLo := wrap32 (shiftLo + width) <=? 32 in
  let sizeLo := if onlyLo then width else wrap32 (32 - shiftLo) in
  let sizeHi := if onlyLo then 0 else wrap32 (shiftLo + width - 32) in
  let shiftHi := sizeLo in
  let maskLo := if width =? 32 then wrap32 (-1) else low_mask sizeLo in
  let maskU := low_mask sizeHi in
  let retLo := Z.land (shr32 rawLo shiftLo) maskLo in
  let retHi := shl32 (Z.land rawHi maskU) shiftHi in
  Some (Z.lor retLo retHi).

(** ** Most-significant-bit helper *)

(** [_BitScanReverse(&idx, value)]: scans from bit [n-1] downwards and stores
    the position of the first set bit; [idx] keeps its initial 0 when no bit
    is set. *)
Fixpoint bit_scan_reverse (n : nat) (value : Z) : Z :=
  match n with
  | O => 0
  | S k => if Z.testbit value (Z.of_nat k) then Z.of_nat k
           else bit_scan_reverse k value
  end.

(** [__builtin_clz(value)]: the number of zero bits above the first set bit
    of a 32-bit word. *)
Fixpoint count_leading_zeros (n : nat) (value : Z) : Z :=
  match n with
  | O => 0
  | S k => if Z.testbit value (Z.of_nat k) then 0
           else 1 + count_leading_zeros k value
  end.

Definition builtin_clz (value : Z) : Z :=
  if value =? 0 then clz_zero else count_leading_zeros 32 value.

Definition findMSB (value : Z) : Z :=
  match compiler with
  | MSVC => bit_scan_reverse 32 value
  | GNUC => wrap32 (builtin_clz value)
  end.

End Machine.

(** ** Statistics aggregator *)

(** [double(n)] for a [size_t]: the nearest binary64 value. *)
Definition double_of_size_t (n : Z) : float :=
  SF2Prim (SpecFloat.binary_normalize 53 1024 n 0 false).

Record Stats := {
  meshletsTotal : Z;
  meshletsStored : Z;
  backfaceTotal : Z;
  primIndices : Z;
  primTotal : Z;
  vertexIndices : Z;
  vertexTotal : Z;
  posBitTotal : Z;
  appended : Z;
  primloadAvg : float;
  primloadVar : float;
  vertexloadAvg : float;
  vertexloadVar : float
}.

(** The default member initialisers. *)
Definition Stats_default : Stats :=
  {| meshletsTotal := 0; meshletsStored := 0; backfaceTotal := 0;
     primIndices := 0; primTotal := 0; vertexIndices := 0; vertexTotal := 0;
     posBitTotal := 0; appended := 0;
     primloadAvg := 0%float; primloadVar := 0%float;
     vertexloadAvg := 0%float; vertexloadVar := 0%float |}.

(** [Stats::append]: one [+=] per line of the source, in its order; a field
    the body does not name keeps the value of [this]. *)
Definition append (this other : Stats) : Stats :=
  {| meshletsTotal := wrap64 (meshletsTotal this + meshletsTotal other);
     meshletsStored := wrap64 (meshletsStored this + meshletsStored other);
     backfaceTotal := wrap64 (backfaceTotal this + backfaceTotal other);
     primIndices := wrap64 (primIndices this + primIndices other);
     vertexIndices := wrap64 (vertexIndices this + vertexIndices other);
     vertexTotal := wrap64 (vertexTotal this + vertexTotal other);
     primTotal := wrap64 (primTotal this + primTotal other);
     posBitTotal := posBitTotal this;
     appended := wrap64 (appended this + appended other);
     primloadAvg := (primloadAvg this + primloadAvg other)%float;
     primloadVar := (primloadVar this + primloadVar other)%float;
     vertexloadAvg := (vertexloadAvg this + vertexloadAvg other)%float;
     vertexloadVar := (vertexloadVar this + vertexloadVar other)%float |}.

(** What [fprint] does besides computing: the divisions it evaluates and the
    line it writes to the log. *)
Inductive printf_arg :=
| ArgSize (n : Z)
| ArgDouble (x : float).

Inductive effect :=
| Divide (num den : float)
| Fprintf (format : string) (args : list printf_arg).

(** A writer monad over the list of effects. *)
Definition Log (A : Type) : Type := (list effect * A)%type.

#[local] Instance Log_ret : MRet Log := fun A x => ([], x).
#[local] Instance Log_bind : MBind Log := fun A B k m =>
  let '(l1, x) := m in let '(l2, y) := k x in (l1 ++ l2, y).

Definition fdiv (num den : float) : Log float :=
  ([Divide num den], (num / den)%float).
Definition fprintf (format : string) (args : list printf_arg) : Log unit :=
  ([Fprintf format args], tt).

Definition fprint_format : string :=
  "meshlets; %7zd; prim; %9zd; %.2f; vertex; %9zd; %.2f; backface; %.2f; waste; v; %.2f; p; %.2f; m; %.2f;\n".

Definition fprint (s : Stats) : Log unit :=
  if (appended s =? 0) || (meshletsTotal s =? 0) then mret tt else
  fprimloadAvg ← fdiv (primloadAvg s) (double_of_size_t (appended s));
  fvertexloadAvg ← fdiv (vertexloadAvg s) (double_of_size_t (appended s));
  let statsNum := double_of_size_t (meshletsTotal s) in
  backfaceAvg ← fdiv (double_of_size_t (backfaceTotal s)) statsNum;
  q1 ← fdiv (double_of_size_t (primIndices s))
            (double_of_size_t (wrap64 (primTotal s * 3)));
  let primWaste := (q1 - 1)%float in
  q2 ← fdiv (double_of_size_t (vertexIndices s))
            (double_of_size_t (vertexTotal s));
  let vertexWaste := (q2 - 1)%float in
  q3 ← fdiv (double_of_size_t (meshletsStored s))
            (double_of_size_t (meshletsTotal s));
  let meshletWaste := (q3 - 1)%float in
  fprintf fprint_format
    [ArgSize (meshletsTotal s); ArgSize (primTotal s); ArgDouble fprimloadAvg;
     ArgSize (vertexTotal s); ArgDouble fvertexloadAvg; ArgDouble backfaceAvg;
     ArgDouble vertexWaste; ArgDouble primWaste; ArgDouble meshletWaste].

(** ** Primitive cache *)

Definition MAX_VERTEX_COUNT_LIMIT : Z := 256.
Definition MAX_PRIMITIVE_COUNT_LIMIT : Z := 256.

(** A row of [primitives] holds three [PrimitiveIndexType] ([uint8_t]). *)
Definition prim_row : Type := (Z * Z * Z)%type.

Record PrimitiveCache := {
  primitives : list prim_row;
  vertices : list Z;
  numPrims : Z;
  numVertices : Z;
  numVertexDeltaBits : Z;
  numVertexAllBits : Z;
  maxVertexSize : Z;
  maxPrimitiveSize : Z;
  primitiveBits : Z;
  maxBlockBits : Z
}.

(** A freshly constructed cache: value-initialised arrays and counters, the
    default member initialisers for [primitiveBits] and [maxBlockBits]. *)
Definition PrimitiveCache_default : PrimitiveCache :=
  {| primitives := replicate (Z.to_nat MAX_PRIMITIVE_COUNT_LIMIT) (0, 0, 0);
     vertices := replicate (Z.to_nat MAX_VERTEX_COUNT_LIMIT) 0;
     numPrims := 0; numVertices := 0;
     numVertexDeltaBits := 0; numVertexAllBits := 0;
     maxVertexSize := 0; maxPrimitiveSize := 0;
     primitiveBits := 1; maxBlockBits := wrap32 (-1) |}.

(** The caller's assignments to the four configuration members. *)
Definition configure (st : PrimitiveCache) (mv mp pb mb : Z) : PrimitiveCache :=
  {| primitives := primitives st; vertices := vertices st;
     numPrims := numPrims st; numVertices := numVertices st;
     numVertexDeltaBits := numVertexDeltaBits st;
     numVertexAllBits := numVertexAllBits st;
     maxVertexSize := mv; maxPrimitiveSize := mp;
     primitiveBits := pb; maxBlockBits := mb |}.

(** A load [arr[i]].  Every load of the cache is below [numVertices]; where
    that exceeds the array the model reads 0. *)
Definition read (arr : list Z) (i : Z) : Z := default 0 (arr !! Z.to_nat i).

(** A store [arr[i] = x]; outside the array it is a fault. *)
Definition store {A} (arr : list A) (i : Z) (x : A) : option (list A) :=
  if decide (Z.to_nat i < length arr)%nat
  then Some (<[Z.to_nat i := x]> arr) else None.

Definition empty (st : PrimitiveCache) : bool := numVertices st =? 0.

Definition reset (st : PrimitiveCache) : PrimitiveCache :=
  {| primitives := primitives st;
     vertices := replicate (Z.to_nat MAX_VERTEX_COUNT_LIMIT) (wrap32 (-1));
     numPrims := 0; numVertices := 0;
     numVertexDeltaBits := 0; numVertexAllBits := 0;
     maxVertexSize := maxVertexSize st;
     maxPrimitiveSize := maxPrimitiveSize st;
     primitiveBits := primitiveBits st; maxBlockBits := maxBlockBits st |}.

Definition fitsBlock (st : PrimitiveCache) : bool :=
  let primBits :=
    wrap32 (wrap32 (wrap32 (numPrims st - 1) * 3) * primitiveBits st) in
  let vertBits :=
    wrap32 (wrap32 (numVertices st - 1) * numVertexDeltaBits st) in
  wrap32 (primBits + vertBits) <=? maxBlockBits st.

(** The test that skips degenerate triangles, shared by the three methods. *)
Definition degenerate (idxA idxB idxC : Z) : bool :=
  (idxA =? idxB) || (idxA =? idxC) || (idxB =? idxC).

(** The nested loops counting [found]: for every held vertex, for every
    index of the triangle. *)
Definition count_found (st : PrimitiveCache) (indices : list Z) : Z :=
  fold_left
    (fun found v =>
       fold_left
         (fun found idx =>
            if read (vertices st) v =? idx then wrap32 (found + 1) else found)
         indices found)
    (seqZ 0 (numVertices st)) 0.

Definition cannotInsert (st : PrimitiveCache) (idxA idxB idxC : Z) : bool :=
  if degenerate idxA idxB idxC then false else
  let found := count_found st [idxA; idxB; idxC] in
  (maxVertexSize st <? wrap32 (wrap32 (numVertices st + 3) - found))
  || (maxPrimitiveSize st <? wrap32 (numPrims st + 1)).

Section Cache.
Context {T : Target}.

(** [numVertices ? vertices[0] : indices[0]] *)
Definition firstVertex (st : PrimitiveCache) (idxA : Z) : Z :=
  if numVertices st =? 0 then idxA else read (vertices st) 0.

(** The candidate delta width [cmpBits] of [cannotInsertBlock]. *)
Definition cmpBits (st : PrimitiveCache) (idxA idxB idxC : Z) : Z :=
  let first := firstVertex st idxA in
  wrap32
    (umax (findMSB (Z.lor (Z.lxor first idxA) 1))
       (umax (findMSB (Z.lor (Z.lxor first idxB) 1))
             (findMSB (Z.lor (Z.lxor first idxC) 1)))
     + 1).

(** [newBits], the prospective size of the block. *)
Definition newBits (st : PrimitiveCache) (idxA idxB idxC : Z) : Z :=
  let found := count_found st [idxA; idxB; idxC] in
  let deltaBits := umax (cmpBits st idxA idxB idxC) (numVertexDeltaBits st) in
  let newVertices := wrap32 (wrap32 (numVertices st + 3) - found) in
  let newPrims := wrap32 (numPrims st + 1) in
  let newVertBits := wrap32 (wrap32 (newVertices - 1) * deltaBits) in
  let newPrimBits :=
    wrap32 (wrap32 (wrap32 (newPrims - 1) * 3) * primitiveBits st) in
  wrap32 (newVertBits + newPrimBits).

Definition cannotInsertBlock (st : PrimitiveCache) (idxA idxB idxC : Z) : bool :=
  if degenerate idxA idxB idxC then false else
  let found := count_found st [idxA; idxB; idxC] in
  let newVertices := wrap32 (wrap32 (numVertices st + 3) - found) in
  let newPrims := wrap32 (numPrims st + 1) in
  (maxPrimitiveSize st <? newPrims)
  || (maxVertexSize st <? newVertices)
  || (maxBlockBits st <? newBits st idxA idxB idxC).

(** One round of the outer loop of [insert]: look [idx] up among the held
    vertices (first match wins), append it when absent; yields the local
    index [tri[i]]. *)
Definition insert_index (st : PrimitiveCache) (idx : Z)
    : option (PrimitiveCache * Z) :=
  match find (fun v => idx =? read (vertices st) v)
             (seqZ 0 (numVertices st)) with
  | Some v => Some (st, v)
  | None =>
    vs ← store (vertices st) (numVertices st) idx;
    let deltaBits :=
      if numVertices st =? 0 then numVertexDeltaBits st
      else umax (wrap32 (findMSB (Z.lor (Z.lxor idx (read vs 0)) 1) + 1))
                (numVertexDeltaBits st) in
    let allBits := umax (numVertexAllBits st) (wrap32 (findMSB idx + 1)) in
    Some ({| primitives := primitives st; vertices := vs;
             numPrims := numPrims st;
             numVertices := wrap32 (numVertices st + 1);
             numVertexDeltaBits := deltaBits;
             numVertexAllBits := allBits;
             maxVertexSize := maxVertexSize st;
             maxPrimitiveSize := maxPrimitiveSize st;
             primitiveBits := primitiveBits st;
             maxBlockBits := maxBlockBits st |},
          numVertices st)
  end.

(** [insert], as a release build runs it; the closing [assert(fitsBlock())]
    of a debug build is [fitsBlock] of the returned cache and is reached by
    non-degenerate triangles only. *)
Definition insert (st : PrimitiveCache) (idxA idxB idxC : Z)
    : option PrimitiveCache :=
  if degenerate idxA idxB idxC then Some st else
  '(st1, t0) ← insert_index st idxA;
  '(st2, t1) ← insert_index st1 idxB;
  '(st3, t2) ← insert_index st2 idxC;
  prims ← store (primitives st3) (numPrims st3) (wrap8 t0, wrap8 t1, wrap8 t2);
  Some {| primitives := prims; vertices := vertices st3;
          numPrims := wrap32 (numPrims st3 + 1);
          numVertices := numVertices st3;
          numVertexDeltaBits := numVertexDeltaBits st3;
          numVertexAllBits := numVertexAllBits st3;
          maxVertexSize := maxVertexSize st3;
          maxPrimitiveSize := maxPrimitiveSize st3;
          primitiveBits := primitiveBits st3;
          maxBlockBits := maxBlockBits st3 |}.

End Cache.

(** ** The check-then-insert protocol *)

Definition triangle : Type := (Z * Z * Z)%type.

(** Which feasibility predicate the caller consults before [insert], if
    any. *)
Inductive Check := NoCheck | CapacityOnly | BitBudget.

Section Protocol.
Context {T : Target}.

Definition refuses (k : Check) (st : PrimitiveCache) (t : triangle) : bool :=
  let '(a, b, c) := t in
  match k with
  | NoCheck => false
  | CapacityOnly => cannotInsert st a b c
  | BitBudget => cannotInsertBlock st a b c
  end.

(** [run k init ts st]: starting from [init], every triangle of [ts] was
    offered in order, the predicate answered [false] and [insert] returned;
    [st] is the cache afterwards.  Every intermediate cache of a run is the
    end of the run on a prefix. *)
Inductive run (k : Check) (init : PrimitiveCache)
    : list triangle -> PrimitiveCache -> Prop :=
| run_start : run k init [] init
| run_insert ts st a b c st' :
    run k init ts st ->
    refuses k st (a, b, c) = false ->
    insert st a b c = Some st' ->
    run k init (ts ++ [(a, b, c)]) st'.

(** The same as a function: [None] when a triangle is refused or a store
    faults. *)
Fixpoint feed (k : Check) (st : PrimitiveCache) (ts : list triangle)
    : option PrimitiveCache :=
  match ts with
  | [] => Some st
  | (a, b, c) :: rest =>
    if refuses k st (a, b, c) then None
    else st' ← insert st a b c; feed k st' rest
  end.

End Protocol.

(** The original indices of a stream, corner by corner. *)
Definition corners (ts : list triangle) : list Z :=
  concat (map (fun t : triangle => let '(a, b, c) := t in [a; b; c]) ts).

(** The distinct values of a list in order of first use. *)
Fixpoint first_use (xs : list Z) : list Z :=
  match xs with
  | [] => []
  | x :: rest => x :: filter (fun y => y <> x) (first_use rest)
  end.

(** ** Vocabulary of the statements *)

(** The held vertices [vertices[0 .. numVertices)] and the accepted rows
    [primitives[0 .. numPrims)]. *)
Definition held (st : PrimitiveCache) : list Z :=
  take (Z.to_nat (numVertices st)) (vertices st).
Definition rows (st : PrimitiveCache) : list prim_row :=
  take (Z.to_nat (numPrims st)) (primitives st).

(** Appending a value unless it is present. *)
Definition extend (l : list Z) (x : Z) : list Z :=
  if decide (x ∈ l) then l else l ++ [x].

Definition same_config (st st' : PrimitiveCache) : Prop :=
  maxVertexSize st' = maxVertexSize st
  /\ maxPrimitiveSize st' = maxPrimitiveSize st
  /\ primitiveBits st' = primitiveBits st
  /\ maxBlockBits st' = maxBlockBits st.

(** The two arrays have their declared sizes. *)
Definition arrays_sized (st : PrimitiveCache) : Prop :=
  length (primitives st) = Z.to_nat MAX_PRIMITIVE_COUNT_LIMIT
  /\ length (vertices st) = Z.to_nat MAX_VERTEX_COUNT_LIMIT.

Definition vertices_ok (st : PrimitiveCache) : Prop :=
  length (vertices st) = Z.to_nat MAX_VERTEX_COUNT_LIMIT
  /\ 0 <= numVertices st <= MAX_VERTEX_COUNT_LIMIT.

(** The invariant of a cache in use: counters within the arrays, held
    vertices pairwise distinct, delta width at most a word. *)
Definition well_formed (st : PrimitiveCache) : Prop :=
  arrays_sized st
  /\ 0 <= numVertices st <= MAX_VERTEX_COUNT_LIMIT
  /\ 0 <= numPrims st <= MAX_PRIMITIVE_COUNT_LIMIT
  /\ NoDup (held st)
  /\ 0 <= numVertexDeltaBits st <= 32.

(** A stored row resolves to a triangle: each local index is below
    [numVertices] and [vertices] maps it to the original index. *)
Definition resolves (st : PrimitiveCache) (row : prim_row) (t : triangle)
    : Prop :=
  let '(la, lb, lc) := row in
  let '(a, b, c) := t in
  (0 <= la < numVertices st /\ read (vertices st) la = a)
  /\ (0 <= lb < numVertices st /\ read (vertices st) lb = b)
  /\ (0 <= lc < numVertices st /\ read (vertices st) lc = c).

Definition nondegenerate (t : triangle) : Prop :=
  let '(a, b, c) := t in degenerate a b c = false.

#[local] Instance nondegenerate_dec (t : triangle) : Decision (nondegenerate t) :=
  match t return Decision (nondegenerate t) with
  | (a, b, c) => decide (degenerate a b c = false)
  end.

(** The triangles of a stream that [insert] does not skip. *)
Definition kept (ts : list triangle) : list triangle := filter nondegenerate ts.

(** The cache holds the accepted triangles [ts]: one row per triangle, in
    order, each resolving to its triangle; the held vertices are the
    distinct indices of [ts] in order of first use. *)
Definition tracks (ts : list triangle) (st : PrimitiveCache) : Prop :=
  numPrims st = Z.of_nat (length ts)
  /\ held st = first_use (corners ts)
  /\ forall (p : nat) t, ts !! p = Some t ->
       exists row, primitives st !! p = Some row /\ resolves st row t.

Definition within_limits (st : PrimitiveCache) : Prop :=
  numVertices st <= maxVertexSize st /\ numPrims st <= maxPrimitiveSize st.

(** 1 when [x] is held, 0 otherwise. *)
Definition hits (l : list Z) (x : Z) : Z := if decide (x ∈ l) then 1 else 0.

(** What a consumer of the cache can observe: the counters, the
    configuration, the held vertices and the accepted rows. *)
Definition obs_eq (s1 s2 : PrimitiveCache) : Prop :=
  numPrims s1 = numPrims s2
  /\ numVertices s1 = numVertices s2
  /\ numVertexDeltaBits s1 = numVertexDeltaBits s2
  /\ numVertexAllBits s1 = numVertexAllBits s2
  /\ same_config s1 s2
  /\ rows s1 = rows s2
  /\ held s1 = held s2.

(** Two caches that a run cannot tell apart: equal observations, arrays
    of the declared sizes, counters within them. *)
Definition alike (s1 s2 : PrimitiveCache) : Prop :=
  obs_eq s1 s2
  /\ arrays_sized s1 /\ arrays_sized s2
  /\ 0 <= numVertices s1 <= MAX_VERTEX_COUNT_LIMIT
  /\ 0 <= numPrims s1 <= MAX_PRIMITIVE_COUNT_LIMIT.

(** A freshly constructed cache given the configuration of [st]. *)
Definition fresh_like (st : PrimitiveCache) : PrimitiveCache :=
  configure PrimitiveCache_default (maxVertexSize st) (maxPrimitiveSize st)
    (primitiveBits st) (maxBlockBits st).

Definition stats_with_posBitTotal (n : Z) : Stats :=
  {| meshletsTotal := 0; meshletsStored := 0; backfaceTotal := 0;
     primIndices := 0; primTotal := 0; vertexIndices := 0; vertexTotal := 0;
     posBitTotal := n; appended := 0;
     primloadAvg := 0%float; primloadVar := 0%float;
     vertexloadAvg := 0%float; vertexloadVar := 0%float |}.

(** Caches used in the examples: 64 vertices, 126 primitives, 8-bit local
    indices; one without a budget, one with a budget of 1000 bits. *)
Definition unbudgeted_cache : PrimitiveCache :=
  configure PrimitiveCache_default 64 126 8 (wrap32 (-1)).
Definition budgeted_cache : PrimitiveCache :=
  configure PrimitiveCache_default 64 126 8 1000.

(** A cache that has been used: two triangles went in. *)
Definition used_cache : PrimitiveCache :=
  default unbudgeted_cache
    (feed (T := gcc_x86) CapacityOnly (reset unbudgeted_cache)
       [(7, 3, 9); (9, 3, 4)]).

(** ** Helpers outside the cache *)

(** [~x] on [uint32_t]. *)
Definition not32 (x : Z) : Z := wrap32 (Z.lnot x).

Definition alignedSize (v align : Z) : Z :=
  Z.land (wrap32 (wrap32 (v + align) - 1)) (not32 (wrap32 (align - 1))).

(** The quantized vector [qvec]: three [uint32_t]. *)
Record qvec := { qx : Z; qy : Z; qz : Z }.

(** [std::min] on unsigned values ([umax] is [std::max]). *)
Definition umin (a b : Z) : Z := if b <? a then b else a.

Definition qvec_sub (a b : qvec) : qvec :=
  {| qx := wrap32 (qx a - qx b); qy := wrap32 (qy a - qy b);
     qz := wrap32 (qz a - qz b) |}.
Definition qvec_min (a b : qvec) : qvec :=
  {| qx := umin (qx a) (qx b); qy := umin (qy a) (qy b);
     qz := umin (qz a) (qz b) |}.
Definition qvec_max (a b : qvec) : qvec :=
  {| qx := umax (qx a) (qx b); qy := umax (qy a) (qy b);
     qz := umax (qz a) (qz b) |}.

(** All three components are [uint32_t] values. *)
Definition qvec_ok (a : qvec) : Prop :=
  0 <= qx a < 2 ^ 32 /\ 0 <= qy a < 2 ^ 32 /\ 0 <= qz a < 2 ^ 32.

Section Packing.
Context {T : Target}.

(** [pack] and [unpack]; [width] and [offset] are non-negative [int]s, the
    mask [(1 << width) - 1] is [low_mask]. *)
Definition pack (value width offset : Z) : Z :=
  shl32 (Z.land value (low_mask width)) offset.
Definition unpack (value width offset : Z) : Z :=
  Z.land (shr32 value offset) (low_mask width).

End Packing.

(** Bit [n] of a word array: bit [n mod 32] of word [n / 32], 0 outside. *)
Definition bit_at (words : list Z) (n : Z) : bool :=
  Z.testbit (default 0 (words !! Z.to_nat (n / 32))) (n mod 32).

(** Every word is a [uint32_t]. *)
Definition words_ok (words : list Z) : Prop :=
  Forall (fun w => 0 <= w < 2 ^ 32) words.

(** A cache filled to the last row: the same triangle 256 times, no check. *)
Definition full_cache : PrimitiveCache :=
  default unbudgeted_cache
    (feed (T := gcc_x86) NoCheck (reset unbudgeted_cache)
       (replicate 256 (0, 1, 2))).

(** A cache limited to 4 vertices that holds one triangle. *)
Definition tight_cache : PrimitiveCache :=
  default PrimitiveCache_default
    (insert (T := gcc_x86)
       (reset (configure PrimitiveCache_default 4 126 8 1000)) 0 1 2).

(** The indices of a triangle are [uint32_t] values. *)
Definition indices_ok (t : triangle) : Prop :=
  let '(a, b, c) := t in
  0 <= a < 2 ^ 32 /\ 0 <= b < 2 ^ 32 /\ 0 <= c < 2 ^ 32.

(** Both bit widths cover the held vertices: every held vertex fits
    [numVertexAllBits] bits and its XOR-difference from the first vertex fits
    [numVertexDeltaBits] bits. *)
Definition widths_suffice (st : PrimitiveCache) : Prop :=
  forall v, v ∈ held st ->
    0 <= v < 2 ^ 32
    /\ Z.lxor v (read (vertices st) 0) < 2 ^ numVertexDeltaBits st
    /\ v < 2 ^ numVertexAllBits st.

(** The counters that [append] merges. *)
Definition merged_counters (s : Stats) : list Z :=
  [meshletsTotal s; meshletsStored s; backfaceTotal s; primIndices s;
   primTotal s; vertexIndices s; vertexTotal s; appended s].

(** Statistics with one meshlet appended and no primitive or vertex. *)
Definition reported_stats : Stats :=
  {| meshletsTotal := 1; meshletsStored := 1; backfaceTotal := 0;
     primIndices := 0; primTotal := 0; vertexIndices := 0; vertexTotal := 0;
     posBitTotal := 0; appended := 1;
     primloadAvg := 0%float; primloadVar := 0%float;
     vertexloadAvg := 0%float; vertexloadVar := 0%float |}.

(** * Properties *)

(** ** Machine integers *)

Lemma wrap32_small x : 0 <= x < 2 ^ 32 -> wrap32 x = x.
Proof. intros H. unfold wrap32. now apply Z.mod_small. Qed.

Lemma wrap32_range x : 0 <= wrap32 x < 2 ^ 32.
Proof. unfold wrap32. apply Z.mod_pos_bound. lia. Qed.

Lemma wrap8_small x : 0 <= x < 256 -> wrap8 x = x.
Proof. intros H. unfold wrap8. apply Z.mod_small. lia. Qed.

Lemma umax_max a b : umax a b = Z.max a b.
Proof. unfold umax. destruct (Z.ltb_spec a b); lia. Qed.

(** ** [findMSB] *)

Lemma testbit_above_bound v k :
  0 <= k -> 0 <= v < 2 ^ k -> Z.testbit v k = false.
Proof.
  intros Hk Hv. rewrite <- (Z.mod_small v (2 ^ k)) by lia.
  apply Z.mod_pow2_bits_high. lia.
Qed.

Lemma top_bit_log2 v k :
  0 <= k -> 0 < v < 2 ^ (k + 1) -> Z.testbit v k = true -> Z.log2 v = k.
Proof.
  intros Hk Hv Hb. apply Z.log2_unique; [lia|]. split; [|lia].
  destruct (Z.le_gt_cases (2 ^ k) v) as [|Hlt]; [assumption|].
  rewrite testbit_above_bound in Hb by lia. discriminate.
Qed.

Lemma top_bit_clear v k :
  0 <= k -> 0 < v < 2 ^ (k + 1) -> Z.testbit v k = false -> v < 2 ^ k.
Proof.
  intros Hk Hv Hb.
  destruct (Z.le_gt_cases (2 ^ k) v) as [Hle|]; [|lia].
  assert (Z.log2 v = k) as Hl by (apply Z.log2_unique; lia).
  pose proof (Z.bit_log2 v ltac:(lia)) as Hbit.
  rewrite Hl in Hbit. congruence.
Qed.

(** [_BitScanReverse] yields the position of the most-significant set bit. *)
Lemma bit_scan_reverse_log2 n v :
  0 < v < 2 ^ Z.of_nat n -> bit_scan_reverse n v = Z.log2 v.
Proof.
  induction n as [|k IH]; intros Hv.
  - simpl in Hv. lia.
  - rewrite Nat2Z.inj_succ, <- Z.add_1_r in Hv.
    cbn [bit_scan_reverse].
    destruct (Z.testbit v (Z.of_nat k)) eqn:Hb.
    + symmetry. apply top_bit_log2; [lia|assumption|assumption].
    + apply IH. split; [lia|]. apply top_bit_clear; [lia|assumption|assumption].
Qed.

(** [__builtin_clz] yields the number of zero bits above it. *)
Lemma count_leading_zeros_log2 n v :
  0 < v < 2 ^ Z.of_nat n ->
  count_leading_zeros n v = Z.of_nat n - 1 - Z.log2 v.
Proof.
  induction n as [|k IH]; intros Hv.
  - simpl in Hv. lia.
  - rewrite Nat2Z.inj_succ, <- Z.add_1_r in *.
    cbn [count_leading_zeros].
    destruct (Z.testbit v (Z.of_nat k)) eqn:Hb.
    + rewrite (top_bit_log2 v (Z.of_nat k)); [lia|lia|assumption|assumption].
    + rewrite IH; [lia|]. split; [lia|].
      apply top_bit_clear; [lia|assumption|assumption].
Qed.

Lemma findMSB_msvc {T : Target} v :
  compiler = MSVC -> 0 < v < 2 ^ 32 -> findMSB v = Z.log2 v.
Proof.
  intros Hc Hv. unfold findMSB. rewrite Hc.
  now apply (bit_scan_reverse_log2 32).
Qed.

Lemma findMSB_gnuc {T : Target} v :
  compiler = GNUC -> 0 < v < 2 ^ 32 -> findMSB v = 31 - Z.log2 v.
Proof.
  intros Hc Hv. unfold findMSB, builtin_clz. rewrite Hc.
  destruct (Z.eqb_spec v 0); [lia|].
  rewrite (count_leading_zeros_log2 32) by assumption.
  assert (0 <= Z.log2 v < 32).
  { split; [apply Z.log2_nonneg|]. apply Z.log2_lt_pow2; lia. }
  apply wrap32_small. change (Z.of_nat 32) with 32. lia.
Qed.

Lemma bit_scan_reverse_range n v :
  0 <= bit_scan_reverse (S n) v <= Z.of_nat n.
Proof.
  induction n as [|k IH].
  - cbn [bit_scan_reverse]. destruct (Z.testbit v _); lia.
  - cbn [bit_scan_reverse] in *.
    destruct (Z.testbit v (Z.of_nat (S k))); lia.
Qed.

Lemma count_leading_zeros_range n v :
  Z.testbit v 0 = true -> 0 <= count_leading_zeros (S n) v <= Z.of_nat n.
Proof.
  intros Hb. induction n as [|k IH].
  - cbn [count_leading_zeros]. change (Z.of_nat 0) with 0. rewrite Hb. lia.
  - cbn [count_leading_zeros] in *.
    destruct (Z.testbit v (Z.of_nat (S k))); lia.
Qed.

(** With the [| 1] guard the result lies in [0, 31] under either compiler. *)
Lemma findMSB_guarded_range {T : Target} x :
  0 <= findMSB (Z.lor x 1) <= 31.
Proof.
  assert (Z.testbit (Z.lor x 1) 0 = true) as Hb.
  { rewrite Z.lor_spec. change (Z.testbit 1 0) with true. apply orb_true_r. }
  unfold findMSB, builtin_clz. destruct compiler.
  - apply (bit_scan_reverse_range 31).
  - destruct (Z.eqb_spec (Z.lor x 1) 0) as [E|_].
    + rewrite E in Hb. discriminate.
    + pose proof (count_leading_zeros_range 31 _ Hb) as H.
      change (Z.of_nat 31) with 31 in H.
      rewrite wrap32_small; lia.
Qed.

Lemma lxor_guard_range x y :
  0 <= x < 2 ^ 32 -> 0 <= y < 2 ^ 32 -> 0 < Z.lor (Z.lxor x y) 1 < 2 ^ 32.
Proof.
  intros Hx Hy.
  assert (0 <= Z.lxor x y) as Hn by (apply Z.lxor_nonneg; lia).
  assert (0 <= Z.lor (Z.lxor x y) 1) as Hn' by (apply Z.lor_nonneg; lia).
  assert (Z.lor (Z.lxor x y) 1 <> 0) as Hnz.
  { intros E. apply Z.lor_eq_0_iff in E. lia. }
  split; [lia|].
  apply Z.log2_lt_cancel. change (Z.log2 (2 ^ 32)) with 32.
  rewrite Z.log2_lor by lia.
  apply Z.max_lub_lt; [|reflexivity].
  eapply Z.le_lt_trans; [apply Z.log2_lxor; lia|].
  assert (forall v, 0 <= v < 2 ^ 32 -> Z.log2 v < 32) as Hl.
  { intros v Hv. destruct (Z.eq_dec v 0) as [->|]; [reflexivity|].
    apply Z.log2_lt_pow2; lia. }
  apply Z.max_lub_lt; apply Hl; assumption.
Qed.

(** On the [_MSC_VER] branch the candidate width is one plus the largest
    most-significant-bit position of the three guarded differences. *)
Lemma cmpBits_msvc {T : Target} st a b c :
  compiler = MSVC ->
  0 <= firstVertex st a < 2 ^ 32 ->
  0 <= a < 2 ^ 32 -> 0 <= b < 2 ^ 32 -> 0 <= c < 2 ^ 32 ->
  let msb idx := Z.log2 (Z.lor (Z.lxor (firstVertex st a) idx) 1) in
  cmpBits st a b c = 1 + Z.max (msb a) (Z.max (msb b) (msb c)).
Proof.
  intros Hc Hf Ha Hb Hcc msb. unfold cmpBits.
  rewrite !umax_max.
  pose proof (findMSB_guarded_range (Z.lxor (firstVertex st a) a)).
  pose proof (findMSB_guarded_range (Z.lxor (firstVertex st a) b)).
  pose proof (findMSB_guarded_range (Z.lxor (firstVertex st a) c)).
  rewrite wrap32_small by lia.
  rewrite !findMSB_msvc by (try assumption; apply lxor_guard_range; assumption).
  subst msb. cbv beta. lia.
Qed.

(** On the other branch it is one plus the largest count of leading zeros:
    the narrowest difference decides, not the widest. *)
Lemma cmpBits_gnuc {T : Target} st a b c :
  compiler = GNUC ->
  0 <= firstVertex st a < 2 ^ 32 ->
  0 <= a < 2 ^ 32 -> 0 <= b < 2 ^ 32 -> 0 <= c < 2 ^ 32 ->
  let msb idx := Z.log2 (Z.lor (Z.lxor (firstVertex st a) idx) 1) in
  cmpBits st a b c = 32 - Z.min (msb a) (Z.min (msb b) (msb c)).
Proof.
  intros Hc Hf Ha Hb Hcc msb. unfold cmpBits.
  rewrite !umax_max.
  pose proof (findMSB_guarded_range (Z.lxor (firstVertex st a) a)).
  pose proof (findMSB_guarded_range (Z.lxor (firstVertex st a) b)).
  pose proof (findMSB_guarded_range (Z.lxor (firstVertex st a) c)).
  rewrite wrap32_small by lia.
  rewrite !findMSB_gnuc by (try assumption; apply lxor_guard_range; assumption).
  subst msb. cbv beta. lia.
Qed.

(** C1.  The claim reads [findMSB] as "position of the most-significant set
    bit", so [findMSB(1) = 0], [findMSB(2^k) = k], and the candidate width of
    triangle (0,1,2) on an empty cache is 2.  The branch compiled without
    [_MSC_VER] returns [__builtin_clz(value)], the number of leading zeros:
    there [findMSB(1) = 31], [findMSB(2^5) = 26] and the candidate width is
    32, while the [_BitScanReverse] branch gives 0, 5 and 2. *)
Theorem findMSB_clz_branch_counts_leading_zeros :
  findMSB (T := gcc_x86) 1 = 31
  /\ findMSB (T := gcc_x86) (2 ^ 5) = 26
  /\ cmpBits (T := gcc_x86) (reset PrimitiveCache_default) 0 1 2 = 32
  /\ findMSB (T := msvc_x86) 1 = 0
  /\ findMSB (T := msvc_x86) (2 ^ 5) = 5
  /\ cmpBits (T := msvc_x86) (reset PrimitiveCache_default) 0 1 2 = 2.
Proof. repeat split; vm_compute; reflexivity. Qed.

(** ** [Stats] *)

(** Every field named in the body of [append] receives the sum. *)
Lemma append_sums_named_fields a b :
  meshletsTotal (append a b) = wrap64 (meshletsTotal a + meshletsTotal b)
  /\ meshletsStored (append a b) = wrap64 (meshletsStored a + meshletsStored b)
  /\ backfaceTotal (append a b) = wrap64 (backfaceTotal a + backfaceTotal b)
  /\ primIndices (append a b) = wrap64 (primIndices a + primIndices b)
  /\ primTotal (append a b) = wrap64 (primTotal a + primTotal b)
  /\ vertexIndices (append a b) = wrap64 (vertexIndices a + vertexIndices b)
  /\ vertexTotal (append a b) = wrap64 (vertexTotal a + vertexTotal b)
  /\ appended (append a b) = wrap64 (appended a + appended b)
  /\ primloadAvg (append a b) = (primloadAvg a + primloadAvg b)%float
  /\ primloadVar (append a b) = (primloadVar a + primloadVar b)%float
  /\ vertexloadAvg (append a b) = (vertexloadAvg a + vertexloadAvg b)%float
  /\ vertexloadVar (append a b) = (vertexloadVar a + vertexloadVar b)%float.
Proof. repeat split. Qed.

(** [posBitTotal] is not named there: it keeps its value. *)
Lemma append_posBitTotal a b : posBitTotal (append a b) = posBitTotal a.
Proof. reflexivity. Qed.

(** C5.  [append] leaves [posBitTotal] unmerged: appending a statistics
    instance with [posBitTotal = 2] to one with [posBitTotal = 1] leaves 1,
    not the sum 3. *)
Theorem append_leaves_posBitTotal_unmerged :
  posBitTotal (append (stats_with_posBitTotal 1) (stats_with_posBitTotal 2)) = 1
  /\ posBitTotal (stats_with_posBitTotal 1)
     + posBitTotal (stats_with_posBitTotal 2) = 3.
Proof. split; reflexivity. Qed.

(** C10.  With [appended = 0] or [meshletsTotal = 0], [fprint] returns at
    its guard: no division is evaluated and nothing is written. *)
Theorem fprint_guard_returns_silently (s : Stats) :
  appended s = 0 \/ meshletsTotal s = 0 -> fprint s = ([], tt).
Proof.
  intros [H|H]; unfold fprint; rewrite H.
  - reflexivity.
  - rewrite orb_true_r. reflexivity.
Qed.

Lemma fprint_guard_returns_silently_witness :
  (appended Stats_default = 0 \/ meshletsTotal Stats_default = 0)
  /\ fprint Stats_default = ([], tt).
Proof.
  split; [left; reflexivity|].
  apply (fprint_guard_returns_silently Stats_default). left. reflexivity.
Defined.

(** Past the guard, six divisions and one line. *)
Lemma fprint_reports (s : Stats) :
  appended s <> 0 -> meshletsTotal s <> 0 ->
  exists d1 d2 d3 d4 d5 d6 line, fprint s = ([d1; d2; d3; d4; d5; d6; line], tt).
Proof.
  intros Ha Hm. unfold fprint.
  destruct (Z.eqb_spec (appended s) 0); [contradiction|].
  destruct (Z.eqb_spec (meshletsTotal s) 0); [contradiction|].
  cbn. repeat eexists.
Qed.

(** ** Degenerate triangles *)

(** C6.  A triangle with two equal indices is reported insertable by both
    predicates and [insert] returns the cache as it was, whatever the cache
    holds. *)
Theorem degenerate_triangle_is_skipped {T : Target}
    (st : PrimitiveCache) (a b c : Z) :
  a = b \/ a = c \/ b = c ->
  cannotInsert st a b c = false
  /\ cannotInsertBlock st a b c = false
  /\ insert st a b c = Some st.
Proof.
  intros H.
  assert (degenerate a b c = true) as Hd.
  { unfold degenerate.
    destruct H as [-> | [-> | ->]]; rewrite Z.eqb_refl;
      rewrite ?orb_true_r; reflexivity. }
  unfold cannotInsert, cannotInsertBlock, insert. rewrite Hd. auto.
Qed.

Lemma degenerate_triangle_is_skipped_witness :
  (5 = 5 \/ 5 = 9 \/ 5 = 9)
  /\ cannotInsert (configure PrimitiveCache_default 0 0 8 0) 5 5 9 = false
  /\ cannotInsertBlock (T := gcc_x86)
       (configure PrimitiveCache_default 0 0 8 0) 5 5 9 = false
  /\ insert (T := gcc_x86) (configure PrimitiveCache_default 0 0 8 0) 5 5 9
     = Some (configure PrimitiveCache_default 0 0 8 0).
Proof.
  split; [left; reflexivity|].
  apply (degenerate_triangle_is_skipped (T := gcc_x86)). left. reflexivity.
Defined.

(** ** Bit-field codec *)

Lemma low_mask_ones {T : Target} n : 0 <= n < 32 -> low_mask n = Z.ones n.
Proof.
  intros Hn. unfold low_mask, shl32.
  destruct (Z.ltb_spec n 32); [|lia].
  rewrite Z.shiftl_1_l, Z.ones_equiv.
  assert (0 < 2 ^ n) by (apply Z.pow_pos_nonneg; lia).
  assert (2 ^ n < 2 ^ 32) by (apply Z.pow_lt_mono_r; lia).
  rewrite (wrap32_small (2 ^ n)) by lia.
  rewrite wrap32_small by lia. lia.
Qed.

(** Reading back the low word: the bits of [v] that survived [<< s] in 32
    bits, cut by a mask of [q] ones. *)
Lemma low_word_bits v s q :
  0 <= s < 32 -> 0 <= q ->
  Z.land (Z.shiftr (wrap32 (Z.shiftl v s)) s) (Z.ones q)
  = v mod 2 ^ Z.min q (32 - s).
Proof.
  intros Hs Hq. apply Z.bits_inj'. intros n Hn.
  rewrite Z.land_spec, Z.shiftr_spec, Z.testbit_ones_nonneg by lia.
  unfold wrap32.
  destruct (Z.lt_ge_cases n (Z.min q (32 - s))) as [Hlt|Hge].
  - rewrite !Z.mod_pow2_bits_low by lia.
    rewrite Z.shiftl_spec by lia.
    replace (n + s - s) with n by lia.
    destruct (Z.ltb_spec n q); [|lia]. apply andb_true_r.
  - rewrite (Z.mod_pow2_bits_high v) by lia.
    destruct (Z.ltb_spec n q); [|apply andb_false_r].
    rewrite Z.mod_pow2_bits_high by lia. reflexivity.
Qed.

(** The high word contributes the next [h] bits of [v], moved back up. *)
Lemma straddle_bits v s h q :
  0 < s < 32 -> 0 <= h <= s -> 32 - s <= q ->
  Z.lor (Z.land (Z.shiftr (wrap32 (Z.shiftl v s)) s) (Z.ones q))
        (wrap32 (Z.shiftl (Z.land (Z.shiftr v (32 - s)) (Z.ones h)) (32 - s)))
  = v mod 2 ^ (32 - s + h).
Proof.
  intros Hs Hh Hq. rewrite low_word_bits by lia.
  rewrite Z.min_r by lia.
  apply Z.bits_inj'. intros n Hn.
  rewrite Z.lor_spec. unfold wrap32.
  destruct (Z.lt_ge_cases n (32 - s)) as [Hlo|Hhi].
  - rewrite !Z.mod_pow2_bits_low by lia.
    rewrite Z.shiftl_spec by lia.
    rewrite (Z.testbit_neg_r _ (n - (32 - s))) by lia.
    apply orb_false_r.
  - rewrite (Z.mod_pow2_bits_high v (32 - s)) by lia.
    rewrite orb_false_l.
    destruct (Z.lt_ge_cases n (32 - s + h)) as [Hin|Hout].
    + rewrite !Z.mod_pow2_bits_low by lia.
      rewrite Z.shiftl_spec, Z.land_spec, Z.shiftr_spec by lia.
      rewrite Z.testbit_ones_nonneg by lia.
      replace (n - (32 - s) + (32 - s)) with n by lia.
      destruct (Z.ltb_spec (n - (32 - s)) h); [|lia]. apply andb_true_r.
    + rewrite (Z.mod_pow2_bits_high v) by lia.
      destruct (Z.lt_ge_cases n 32).
      * rewrite Z.mod_pow2_bits_low by lia.
        rewrite Z.shiftl_spec, Z.land_spec by lia.
        rewrite Z.testbit_ones_nonneg by lia.
        destruct (Z.ltb_spec (n - (32 - s)) h); [lia|]. apply andb_false_r.
      * apply Z.mod_pow2_bits_high. lia.
Qed.

Lemma or_word_zeros n i x :
  (Z.to_nat i < n)%nat ->
  or_word (replicate n 0) i x = Some (<[Z.to_nat i := x]> (replicate n 0)).
Proof.
  intros Hi. unfold or_word.
  rewrite lookup_replicate_2 by assumption. cbn. reflexivity.
Qed.

Lemma or_word_length bits i x bits' :
  or_word bits i x = Some bits' -> length bits' = length bits.
Proof.
  unfold or_word. destruct (bits !! Z.to_nat i); cbn; [|discriminate].
  intros [= <-]. apply length_insert.
Qed.

(** [or_word] touches word [i] only. *)
Lemma or_word_other bits i x bits' (j : nat) :
  or_word bits i x = Some bits' -> j <> Z.to_nat i -> bits' !! j = bits !! j.
Proof.
  unfold or_word. destruct (bits !! Z.to_nat i); cbn; [|discriminate].
  intros [= <-] Hj. apply list_lookup_insert_ne. congruence.
Qed.

Lemma or_word_in_range bits i x :
  (Z.to_nat i < length bits)%nat -> is_Some (or_word bits i x).
Proof.
  intros Hi. unfold or_word.
  destruct (lookup_lt_is_Some_2 bits _ Hi) as [w ->]. cbn. eauto.
Qed.

Lemma shl32_zero {T : Target} c : shl32 0 c = 0.
Proof.
  unfold shl32. destruct (c <? 32).
  - now rewrite Z.shiftl_0_l.
  - apply shl_over_zero.
Qed.

(** What [setBitField] leaves in a zero-initialised array: the low part in
    word [idx], the high part in word [idx + 1] when that word exists. *)
Lemma setBitField_zeros {T : Target} arraySize width offset value :
  0 <= offset -> 0 <= width <= 32 -> offset / 32 < arraySize < 2 ^ 32 ->
  let idx := offset / 32 in
  let s := offset mod 32 in
  let shiftHi := if s + width <=? 32 then width else 32 - s in
  exists words,
    setBitField arraySize (replicate (Z.to_nat arraySize) 0) width offset value
      = Some words
    /\ length words = Z.to_nat arraySize
    /\ words !! Z.to_nat idx = Some (shl32 value s)
    /\ (idx + 1 < arraySize ->
        words !! Z.to_nat (idx + 1) = Some (shr32 value shiftHi))
    /\ (forall j : nat, j <> Z.to_nat idx -> j <> Z.to_nat (idx + 1) ->
        words !! j = replicate (Z.to_nat arraySize) 0 !! j).
Proof.
  intros Ho Hw Hidx idx s shiftHi.
  assert (0 <= s < 32) as Hs by (apply Z.mod_pos_bound; lia).
  assert (0 <= idx) as Hi by (apply Z.div_pos; lia).
  unfold setBitField. fold idx s.
  destruct (Z.ltb_spec idx arraySize) as [_|]; [|lia]. cbn [negb].
  rewrite (wrap32_small (s + width)) by lia.
  rewrite (wrap32_small (32 - s)) by lia.
  rewrite (wrap32_small (idx + 1)) by lia.
  fold shiftHi.
  rewrite or_word_zeros by lia. cbn [mbind option_bind].
  set (retLo := shl32 value s). set (retHi := shr32 value shiftHi).
  destruct (Z.ltb_spec (idx + 1) arraySize) as [Hin|Hout].
  - unfold or_word.
    rewrite list_lookup_insert_ne by lia.
    rewrite lookup_replicate_2 by lia. cbn [mbind option_bind].
    eexists. split; [reflexivity|]. rewrite !length_insert, length_replicate.
    split; [reflexivity|]. split.
    { rewrite list_lookup_insert_ne by lia.
      apply list_lookup_insert_eq. rewrite length_replicate. lia. }
    split.
    { intros _. apply list_lookup_insert_eq.
      rewrite length_insert, length_replicate. lia. }
    intros j H1 H2. rewrite !list_lookup_insert_ne by congruence. reflexivity.
  - eexists. split; [reflexivity|]. rewrite length_insert, length_replicate.
    split; [reflexivity|]. split.
    { apply list_lookup_insert_eq. rewrite length_replicate. lia. }
    split; [lia|].
    intros j H1 H2. rewrite list_lookup_insert_ne by congruence. reflexivity.
Qed.

(** C7.  Round trip on a zero-initialised array: for a width in [1,32], a
    32-bit value and a field that lies within the array (in one word or
    across two), [getBitField] returns the low [width] bits of what
    [setBitField] was given, and neither call faults. *)
Theorem bitfield_roundtrip {T : Target} (arraySize width offset value : Z) :
  1 <= width <= 32 -> 0 <= value < 2 ^ 32 -> 0 <= offset ->
  offset + width <= 32 * arraySize -> arraySize < 2 ^ 32 ->
  (words ← setBitField arraySize (replicate (Z.to_nat arraySize) 0)
             width offset value;
   getBitField arraySize words width offset)
  = Some (value mod 2 ^ width).
Proof.
  intros Hw Hv Ho Hfit Ha.
  assert (offset / 32 < arraySize) as Hidx
    by (apply Z.div_lt_upper_bound; lia).
  destruct (setBitField_zeros arraySize width offset value)
    as (words & -> & Hlen & Hlo & Hhi & _); [lia|lia|lia|].
  cbn [mbind option_bind].
  pose proof (Z.mod_pos_bound offset 32 ltac:(lia)) as Hs.
  pose proof (Z.div_pos offset 32 Ho ltac:(lia)) as Hi.
  pose proof (Z.div_mod offset 32 ltac:(lia)) as Hdm.
  set (idx := offset / 32) in *. set (s := offset mod 32) in *.
  unfold getBitField. fold idx s.
  rewrite Hlo. cbn [mbind option_bind].
  rewrite (wrap32_small (s + width)) by lia.
  rewrite (wrap32_small (32 - s)) by lia.
  rewrite (wrap32_small (idx + 1)) by lia.
  assert ((if width =? 32 then wrap32 (-1) else Z.ones width) = Z.ones width)
    as Hmask by (destruct (Z.eqb_spec width 32) as [->|]; reflexivity).
  destruct (Z.leb_spec (s + width) 32) as [Honly|Hstr].
  - (* the field lies in one word *)
    assert (exists rawHi,
      (if idx + 1 <? arraySize then words !! Z.to_nat (idx + 1) else Some 0)
      = Some rawHi) as [rawHi ->].
    { destruct (Z.ltb_spec (idx + 1) arraySize); eauto. }
    cbn [mbind option_bind]. f_equal.
    rewrite (low_mask_ones 0) by lia. change (Z.ones 0) with 0.
    rewrite Z.land_0_r, shl32_zero, Z.lor_0_r.
    assert ((if width =? 32 then wrap32 (-1) else low_mask width)
            = Z.ones width) as ->.
    { destruct (Z.eqb_spec width 32) as [->|]; [reflexivity|].
      apply low_mask_ones. lia. }
    unfold shl32, shr32. destruct (Z.ltb_spec s 32); [|lia].
    rewrite low_word_bits by lia. now rewrite Z.min_l by lia.
  - (* the field straddles two words *)
    destruct (Z.ltb_spec (idx + 1) arraySize) as [Hin|]; [|lia].
    rewrite Hhi by assumption. cbn [mbind option_bind]. f_equal.
    rewrite (wrap32_small (s + width - 32)) by lia.
    rewrite (low_mask_ones (s + width - 32)) by lia.
    unfold shl32, shr32.
    destruct (Z.ltb_spec s 32); [|lia].
    destruct (Z.ltb_spec (32 - s) 32); [|lia].
    replace width with (32 - s + (s + width - 32)) at 3 by lia.
    destruct (Z.eqb_spec width 32).
    + change (wrap32 (-1)) with (Z.ones 32). apply straddle_bits; lia.
    + rewrite low_mask_ones by lia. apply straddle_bits; lia.
Qed.

Lemma bitfield_roundtrip_witness :
  (words ← setBitField (T := gcc_x86) 2 [0; 0] 12 26 4095;
   getBitField (T := gcc_x86) 2 words 12 26) = Some (4095 mod 2 ^ 12).
Proof. apply (bitfield_roundtrip (T := gcc_x86) 2 12 26 4095); lia. Defined.

(** The aligned 32-bit field, where the source shifts by 32. *)
Example bitfield_roundtrip_aligned_word :
  (words ← setBitField (T := gcc_x86) 2 [0; 0] 32 0 4294967295;
   getBitField (T := gcc_x86) 2 words 32 0) = Some 4294967295
  /\ setBitField (T := gcc_x86) 2 [0; 0] 32 0 4294967295
     = Some [4294967295; 4294967295]
  /\ setBitField (T := gcc_arm) 2 [0; 0] 32 0 4294967295
     = Some [4294967295; 0].
Proof. repeat split. Qed.

Lemma or_word_lookup bits i x w :
  bits !! Z.to_nat i = Some w ->
  or_word bits i x = Some (<[Z.to_nat i := Z.lor w x]> bits).
Proof. intros H. unfold or_word. rewrite H. reflexivity. Qed.

Lemma mod_pow2_nested v w k :
  0 <= k <= w -> (v mod 2 ^ w) mod 2 ^ k = v mod 2 ^ k.
Proof.
  intros H. apply Z.bits_inj'. intros n Hn.
  destruct (Z.lt_ge_cases n k).
  - now rewrite !Z.mod_pow2_bits_low by lia.
  - now rewrite !(Z.mod_pow2_bits_high _ k) by lia.
Qed.

(** What [getBitField] returns when word [idx + 1] lies past the array: the
    high word counts as zero, the result is the low word above bit [s]. *)
Lemma getBitField_last_word {T : Target} arraySize bits width offset w :
  1 <= width <= 32 -> 0 <= offset -> arraySize < 2 ^ 32 ->
  offset / 32 = arraySize - 1 -> 32 < offset mod 32 + width ->
  bits !! Z.to_nat (offset / 32) = Some w -> 0 <= w < 2 ^ 32 ->
  getBitField arraySize bits width offset = Some (Z.shiftr w (offset mod 32)).
Proof.
  intros Hw Ho Ha Hidx Hstr Hlook Hword.
  pose proof (Z.mod_pos_bound offset 32 ltac:(lia)) as Hs.
  pose proof (Z.div_pos offset 32 Ho ltac:(lia)) as Hi.
  unfold getBitField. rewrite Hlook. cbn [mbind option_bind].
  set (idx := offset / 32) in *. set (s := offset mod 32) in *.
  rewrite (wrap32_small (idx + 1)) by lia.
  destruct (Z.ltb_spec (idx + 1) arraySize); [lia|].
  cbn [mbind option_bind]. f_equal.
  rewrite Z.land_0_l, shl32_zero, Z.lor_0_r.
  rewrite (wrap32_small (s + width)) by lia.
  rewrite (wrap32_small (32 - s)) by lia.
  destruct (Z.leb_spec (s + width) 32); [lia|].
  unfold shr32. destruct (Z.ltb_spec s 32); [|lia].
  assert (0 <= Z.shiftr w s < 2 ^ (32 - s)) as Hr.
  { rewrite Z.shiftr_div_pow2 by lia. split.
    - apply Z.div_pos; [lia|]. apply Z.pow_pos_nonneg; lia.
    - apply Z.div_lt_upper_bound; [apply Z.pow_pos_nonneg; lia|].
      rewrite <- Z.pow_add_r by lia. replace (s + (32 - s)) with 32 by lia.
      lia. }
  assert (forall q, 32 - s <= q -> Z.land (Z.shiftr w s) (Z.ones q)
                                   = Z.shiftr w s) as Hmask.
  { intros q Hq. rewrite Z.land_ones by lia. apply Z.mod_small.
    split; [lia|]. eapply Z.lt_le_trans; [apply Hr|].
    apply Z.pow_le_mono_r; lia. }
  destruct (Z.eqb_spec width 32).
  - change (wrap32 (-1)) with (Z.ones 32). apply Hmask. lia.
  - rewrite low_mask_ones by lia. apply Hmask. lia.
Qed.

(** C8.  A field that straddles past the last word ([offset / 32] is the
    last index and [offset % 32 + width > 32]): [setBitField] writes the low
    part into the last word and nothing else, whatever the array held;
    [getBitField] takes the missing high word as zero; neither faults, and on
    a zero-initialised array the field reads back as the written value with
    its high [offset % 32 + width - 32] bits cleared. *)
Theorem bitfield_straddle_past_end {T : Target}
    (arraySize width offset value : Z) :
  1 <= width <= 32 -> 0 <= value < 2 ^ 32 -> 0 <= offset ->
  arraySize < 2 ^ 32 ->
  offset / 32 = arraySize - 1 -> 32 < offset mod 32 + width ->
  let idx := Z.to_nat (offset / 32) in
  let s := offset mod 32 in
  let sizeHi := s + width - 32 in
  (forall bits, length bits = Z.to_nat arraySize ->
     exists w, bits !! idx = Some w
       /\ setBitField arraySize bits width offset value
          = Some (<[idx := Z.lor w (shl32 value s)]> bits))
  /\ (forall bits w, bits !! idx = Some w -> 0 <= w < 2 ^ 32 ->
        getBitField arraySize bits width offset = Some (Z.shiftr w s))
  /\ (words ← setBitField arraySize (replicate (Z.to_nat arraySize) 0)
                width offset value;
      getBitField arraySize words width offset)
     = Some ((value mod 2 ^ width) mod 2 ^ (width - sizeHi)).
Proof.
  intros Hw Hv Ho Ha Hidx Hstr idx s sizeHi.
  pose proof (Z.mod_pos_bound offset 32 ltac:(lia)) as Hs.
  pose proof (Z.div_pos offset 32 Ho ltac:(lia)) as Hi.
  assert (forall bits, length bits = Z.to_nat arraySize ->
     exists w, bits !! idx = Some w
       /\ setBitField arraySize bits width offset value
          = Some (<[idx := Z.lor w (shl32 value s)]> bits)) as Hset.
  { intros bits Hlen.
    destruct (lookup_lt_is_Some_2 bits idx) as [w Hlook]; [subst idx; lia|].
    exists w. split; [assumption|].
    unfold setBitField. fold s.
    destruct (Z.ltb_spec (offset / 32) arraySize); [|lia]. cbn [negb].
    rewrite (or_word_lookup bits _ _ w) by exact Hlook.
    cbn [mbind option_bind].
    rewrite (wrap32_small (offset / 32 + 1)) by lia.
    destruct (Z.ltb_spec (offset / 32 + 1) arraySize); [lia|]. reflexivity. }
  split; [exact Hset|]. split.
  { intros bits w Hlook Hword.
    apply getBitField_last_word; assumption. }
  destruct (Hset (replicate (Z.to_nat arraySize) 0)) as (w & Hlook & ->).
  { apply length_replicate. }
  apply lookup_replicate in Hlook as [-> _].
  cbn [mbind option_bind]. rewrite Z.lor_0_l.
  rewrite (getBitField_last_word _ _ _ _ (shl32 value s)); try assumption.
  - f_equal. fold s. unfold shl32. destruct (Z.ltb_spec s 32); [|lia].
    rewrite mod_pow2_nested by (subst sizeHi; lia).
    replace (width - sizeHi) with (Z.min 32 (32 - s)) by (subst sizeHi; lia).
    rewrite <- low_word_bits by lia.
    rewrite Z.land_ones by lia. symmetry. apply Z.mod_small.
    rewrite Z.shiftr_div_pow2 by lia. split.
    + apply Z.div_pos; [apply wrap32_range|apply Z.pow_pos_nonneg; lia].
    + apply Z.div_lt_upper_bound; [apply Z.pow_pos_nonneg; lia|].
      pose proof (wrap32_range (Z.shiftl value s)).
      assert (0 < 2 ^ s) by (apply Z.pow_pos_nonneg; lia). nia.
  - fold idx. apply list_lookup_insert_eq. rewrite length_replicate.
    subst idx. lia.
  - unfold shl32. destruct (Z.ltb_spec s 32); [|lia]. apply wrap32_range.
Qed.

Lemma bitfield_straddle_past_end_witness :
  (words ← setBitField (T := gcc_x86) 2 [0; 0] 8 60 255;
   getBitField (T := gcc_x86) 2 words 8 60) = Some ((255 mod 2 ^ 8) mod 2 ^ (8 - (60 mod 32 + 8 - 32))).
Proof.
  apply (bitfield_straddle_past_end (T := gcc_x86) 2 8 60 255);
    vm_compute; try reflexivity; try (split; congruence); congruence.
Defined.

(** ** The vertex table *)

Lemma limit_256 : Z.to_nat MAX_VERTEX_COUNT_LIMIT = 256%nat.
Proof. reflexivity. Qed.

Lemma find_vertex_Some vs n idx v :
  find (fun v => idx =? read vs v) (seqZ 0 n) = Some v ->
  0 <= v < n /\ read vs v = idx.
Proof.
  intros H. apply find_some in H as [Hin Heq].
  apply list_elem_of_In, elem_of_seqZ in Hin.
  apply Z.eqb_eq in Heq. split; [lia|congruence].
Qed.

Lemma find_vertex_None vs n idx :
  find (fun v => idx =? read vs v) (seqZ 0 n) = None ->
  forall v, 0 <= v < n -> read vs v <> idx.
Proof.
  intros H v Hv E.
  assert (In v (seqZ 0 n)) as Hin
    by (apply list_elem_of_In, elem_of_seqZ; lia).
  pose proof (find_none _ _ H v Hin) as Hn. cbv beta in Hn.
  apply Z.eqb_neq in Hn. congruence.
Qed.

Lemma read_lookup vs v x : vs !! Z.to_nat v = Some x -> read vs v = x.
Proof. intros H. unfold read. now rewrite H. Qed.

Lemma held_lookup st v :
  0 <= v < numVertices st ->
  held st !! Z.to_nat v = vertices st !! Z.to_nat v.
Proof. intros H. unfold held. apply lookup_take_lt. lia. Qed.

Lemma held_length st :
  vertices_ok st -> length (held st) = Z.to_nat (numVertices st).
Proof.
  intros [Hlen Hnv]. unfold held. apply length_take_le.
  rewrite Hlen. unfold MAX_VERTEX_COUNT_LIMIT in *. lia.
Qed.

Lemma held_read st v x :
  vertices_ok st -> 0 <= v < numVertices st ->
  (held st !! Z.to_nat v = Some x <-> read (vertices st) v = x).
Proof.
  intros [Hlen Hnv] Hv. rewrite held_lookup by assumption.
  destruct (lookup_lt_is_Some_2 (vertices st) (Z.to_nat v)) as [y Hy].
  { rewrite Hlen. unfold MAX_VERTEX_COUNT_LIMIT in *. lia. }
  rewrite Hy, (read_lookup _ _ _ Hy). split; congruence.
Qed.

Lemma elem_of_held st idx :
  vertices_ok st ->
  idx ∈ held st <->
  exists v, 0 <= v < numVertices st /\ read (vertices st) v = idx.
Proof.
  intros Hok. rewrite list_elem_of_lookup. split.
  - intros [i Hi].
    assert (i < Z.to_nat (numVertices st))%nat as Hlt.
    { rewrite <- held_length by assumption. eapply lookup_lt_Some, Hi. }
    exists (Z.of_nat i). split; [lia|].
    apply held_read; [assumption|lia|]. now rewrite Nat2Z.id.
  - intros (v & Hv & Hr). exists (Z.to_nat v). now apply held_read.
Qed.

(** [insert_index] on a held index: the cache is unchanged and the local
    index is a position of the index in the table. *)
Lemma insert_index_hit {T : Target} st idx :
  vertices_ok st -> idx ∈ held st ->
  exists v, insert_index st idx = Some (st, v)
    /\ 0 <= v < numVertices st /\ held st !! Z.to_nat v = Some idx.
Proof.
  intros Hok Hin. unfold insert_index.
  destruct (find _ _) as [v|] eqn:Hf.
  - apply find_vertex_Some in Hf as [Hv Hr].
    exists v. split; [reflexivity|]. split; [assumption|].
    now apply held_read.
  - exfalso. apply elem_of_held in Hin as (v & Hv & Hr); [|assumption].
    eapply find_vertex_None; eassumption.
Qed.

(** [insert_index] on a new index: it goes to position [numVertices]. *)
Lemma insert_index_miss {T : Target} st idx :
  vertices_ok st -> idx ∉ held st ->
  numVertices st < MAX_VERTEX_COUNT_LIMIT ->
  exists st', insert_index st idx = Some (st', numVertices st)
    /\ vertices st' = <[Z.to_nat (numVertices st) := idx]> (vertices st)
    /\ numVertices st' = numVertices st + 1
    /\ primitives st' = primitives st /\ numPrims st' = numPrims st
    /\ same_config st st'
    /\ numVertexAllBits st'
       = umax (numVertexAllBits st) (wrap32 (findMSB idx + 1))
    /\ numVertexDeltaBits st'
       = if numVertices st =? 0 then numVertexDeltaBits st
         else umax (wrap32 (findMSB
                      (Z.lor (Z.lxor idx (read (vertices st) 0)) 1) + 1))
                   (numVertexDeltaBits st).
Proof.
  intros Hok Hout Hroom. pose proof Hok as [Hlen Hnv].
  unfold MAX_VERTEX_COUNT_LIMIT in *.
  unfold insert_index.
  destruct (find _ _) as [v|] eqn:Hf.
  { exfalso. apply find_vertex_Some in Hf as [Hv Hr].
    apply Hout, elem_of_held; eauto. }
  unfold store. destruct (decide _) as [_|Hbad]; [|exfalso; lia].
  cbn [mbind option_bind]. eexists. split; [reflexivity|]. cbn.
  split; [reflexivity|]. split; [apply wrap32_small; lia|].
  split; [reflexivity|]. split; [reflexivity|].
  split; [repeat split|]. split; [reflexivity|].
  destruct (Z.eqb_spec (numVertices st) 0) as [|Hne]; [reflexivity|].
  unfold read. rewrite list_lookup_insert_ne by lia. reflexivity.
Qed.

Lemma held_after_store st st' idx :
  vertices_ok st -> numVertices st < MAX_VERTEX_COUNT_LIMIT ->
  vertices st' = <[Z.to_nat (numVertices st) := idx]> (vertices st) ->
  numVertices st' = numVertices st + 1 ->
  held st' = held st ++ [idx].
Proof.
  intros [Hlen Hnv] Hroom Hvs Hn. unfold MAX_VERTEX_COUNT_LIMIT in *.
  unfold held. rewrite Hvs, Hn.
  replace (Z.to_nat (numVertices st + 1))
    with (S (Z.to_nat (numVertices st))) by lia.
  rewrite (take_S_r _ _ idx).
  - now rewrite take_insert_ge by lia.
  - apply list_lookup_insert_eq. lia.
Qed.

Lemma extend_prefix l x : l `prefix_of` extend l x.
Proof.
  unfold extend. destruct (decide _); [reflexivity|]. now apply prefix_app_r.
Qed.

Lemma extend_length l x : (length l <= length (extend l x))%nat.
Proof. apply prefix_length, extend_prefix. Qed.

Lemma extend_NoDup l x : NoDup l -> NoDup (extend l x).
Proof.
  intros H. unfold extend. destruct (decide _) as [|Hn]; [assumption|].
  apply NoDup_app. split; [assumption|]. split; [|apply NoDup_singleton].
  intros y Hy Hx. apply list_elem_of_singleton in Hx. congruence.
Qed.

Lemma elem_of_extend l x y : y ∈ extend l x <-> y ∈ l \/ y = x.
Proof.
  unfold extend. destruct (decide _) as [Hin|Hout].
  - split; [auto|]. intros [? | ->]; assumption.
  - rewrite elem_of_app, list_elem_of_singleton. reflexivity.
Qed.

(** One round of the outer loop of [insert], hit or miss.  [F] is the first
    vertex of the cluster once the triangle is in: [vertices[0]] of a
    non-empty cache, the index itself on an empty one. *)
Lemma insert_index_spec {T : Target} st idx F :
  vertices_ok st ->
  (idx ∈ held st \/ numVertices st < MAX_VERTEX_COUNT_LIMIT) ->
  (numVertices st = 0 -> idx = F) ->
  (numVertices st <> 0 -> read (vertices st) 0 = F) ->
  exists st' v, insert_index st idx = Some (st', v)
    /\ held st' = extend (held st) idx
    /\ vertices_ok st'
    /\ (0 <= v < numVertices st' /\ held st' !! Z.to_nat v = Some idx)
    /\ (primitives st' = primitives st /\ numPrims st' = numPrims st
        /\ same_config st st')
    /\ (numVertices st' <> 0 /\ read (vertices st') 0 = F)
    /\ numVertexDeltaBits st <= numVertexDeltaBits st'
       <= Z.max (numVertexDeltaBits st)
                (findMSB (Z.lor (Z.lxor F idx) 1) + 1).
Proof.
  intros Hok Hroom HF0 HF1. pose proof Hok as [Hlen Hnv].
  destruct (decide (idx ∈ held st)) as [Hin|Hout].
  - destruct (insert_index_hit st idx Hok Hin) as (v & Hins & Hv & Hlook).
    exists st, v. split; [assumption|].
    split; [unfold extend; now rewrite decide_True by assumption|].
    split; [assumption|]. split; [auto|].
    split; [repeat split|]. split; [split; [lia|apply HF1; lia]|]. lia.
  - destruct Hroom as [?|Hroom]; [contradiction|].
    destruct (insert_index_miss st idx Hok Hout Hroom)
      as (st' & Hins & Hvs & Hn & Hp & Hnp & Hcfg & _ & Hd).
    assert (held st' = held st ++ [idx]) as Hheld
      by (eapply held_after_store; eassumption).
    unfold MAX_VERTEX_COUNT_LIMIT in *.
    exists st', (numVertices st). split; [assumption|].
    split; [unfold extend; now rewrite decide_False by assumption|].
    assert (vertices_ok st') as Hok'.
    { split; [rewrite Hvs, length_insert; assumption|].
      unfold MAX_VERTEX_COUNT_LIMIT. lia. }
    split; [assumption|]. split.
    { split; [lia|]. rewrite Hheld.
      apply lookup_snoc_Some. right. split; [|reflexivity].
      symmetry. now apply held_length. }
    split; [auto|]. split.
    { split; [lia|]. rewrite Hvs.
      destruct (Z.eq_dec (numVertices st) 0) as [E|E].
      - rewrite E. apply read_lookup. cbn [Z.to_nat].
        rewrite list_lookup_insert_eq by lia. f_equal. auto.
      - unfold read. rewrite list_lookup_insert_ne by lia. now apply HF1. }
    rewrite Hd. destruct (Z.eqb_spec (numVertices st) 0) as [|E]; [lia|].
    rewrite umax_max, (HF1 E), Z.lxor_comm.
    pose proof (findMSB_guarded_range (Z.lxor F idx)).
    rewrite wrap32_small by lia. lia.
Qed.

(** ** Counting the matches *)

Lemma fold_seqZ_read {A} (g : A -> Z -> A) vs (k : nat) acc :
  (k <= length vs)%nat ->
  fold_left (fun acc v => g acc (read vs v)) (seqZ 0 (Z.of_nat k)) acc
  = fold_left g (take k vs) acc.
Proof.
  induction k as [|k IH]; intros Hk; [reflexivity|].
  destruct (lookup_lt_is_Some_2 vs k) as [x Hx]; [lia|].
  rewrite seqZ_S, (take_S_r _ _ x) by assumption.
  rewrite !fold_left_app, IH by lia. cbn [fold_left]. f_equal.
  apply read_lookup. now rewrite Z.add_0_l, Nat2Z.id.
Qed.

(** The inner loop adds, for the vertex [x], one per equal index. *)
Lemma count_row x a b c found :
  0 <= found -> found + 3 < 2 ^ 32 ->
  fold_left (fun found idx => if x =? idx then wrap32 (found + 1) else found)
            [a; b; c] found
  = found + (if x =? a then 1 else 0) + (if x =? b then 1 else 0)
    + (if x =? c then 1 else 0).
Proof.
  intros H0 H1. cbn [fold_left].
  destruct (x =? a), (x =? b), (x =? c);
    repeat match goal with
           | |- context [wrap32 ?y] => rewrite (wrap32_small y) by lia
           end; lia.
Qed.

Lemma count_rows l a b c found :
  NoDup l -> 0 <= found -> found + 3 * Z.of_nat (length l) < 2 ^ 32 ->
  fold_left
    (fun found x =>
       fold_left
         (fun found idx => if x =? idx then wrap32 (found + 1) else found)
         [a; b; c] found)
    l found
  = found + hits l a + hits l b + hits l c.
Proof.
  intros Hnd. revert found.
  induction Hnd as [|x l Hx Hnd IH]; intros found H0 H1.
  - unfold hits. rewrite !decide_False by apply not_elem_of_nil. cbn. lia.
  - cbn [length] in H1.
    match goal with
    | |- fold_left ?f (x :: l) found = _ =>
        change (fold_left f (x :: l) found) with (fold_left f l (f found x))
    end.
    cbv beta. rewrite (count_row x a b c found) by lia.
    assert (forall y, hits (x :: l) y = (if x =? y then 1 else 0) + hits l y)
      as Hh.
    { intros y. unfold hits. destruct (Z.eqb_spec x y) as [<-|Hne].
      - rewrite decide_True by apply list_elem_of_here.
        now rewrite decide_False by assumption.
      - destruct (decide (y ∈ l)) as [Hin|Hout].
        + now rewrite decide_True by (now apply list_elem_of_further).
        + rewrite decide_False; [reflexivity|].
          rewrite elem_of_cons. intros [?|?]; congruence. }
    rewrite IH.
    + rewrite !Hh. lia.
    + destruct (x =? a), (x =? b), (x =? c); lia.
    + destruct (x =? a), (x =? b), (x =? c); lia.
Qed.

(** With distinct held vertices, [found] is the number of indices of the
    triangle that are held. *)
Lemma count_found_hits st a b c :
  vertices_ok st -> NoDup (held st) ->
  count_found st [a; b; c]
  = hits (held st) a + hits (held st) b + hits (held st) c.
Proof.
  intros Hok Hnd. pose proof Hok as [Hlen Hnv].
  unfold MAX_VERTEX_COUNT_LIMIT in *. unfold count_found.
  rewrite <- (Z2Nat.id (numVertices st)) at 1 by lia.
  rewrite (fold_seqZ_read
             (fun found x =>
                fold_left
                  (fun found idx =>
                     if x =? idx then wrap32 (found + 1) else found)
                  [a; b; c] found)) by lia.
  fold (held st). rewrite count_rows; [lia|assumption|lia|].
  rewrite held_length by assumption. lia.
Qed.

Lemma hits_range l x : 0 <= hits l x <= 1.
Proof. unfold hits. destruct (decide _); lia. Qed.

Lemma extend_length_hits l x :
  Z.of_nat (length (extend l x)) = Z.of_nat (length l) + 1 - hits l x.
Proof.
  unfold extend, hits. destruct (decide _); [lia|].
  rewrite length_app. cbn. lia.
Qed.

Lemma hits_extend_ne l x y : x <> y -> hits (extend l x) y = hits l y.
Proof.
  intros Hne. unfold hits.
  destruct (decide (y ∈ l)) as [Hin|Hout].
  - rewrite decide_True; [reflexivity|]. apply elem_of_extend. now left.
  - rewrite decide_False; [reflexivity|].
    rewrite elem_of_extend. intros [?|?]; congruence.
Qed.

Lemma degenerate_false a b c :
  degenerate a b c = false <-> a <> b /\ a <> c /\ b <> c.
Proof.
  unfold degenerate. rewrite !orb_false_iff, !Z.eqb_neq. tauto.
Qed.

(** The table after the triangle holds [numVertices + 3 - found] vertices. *)
Lemma extend3_length st a b c :
  vertices_ok st -> NoDup (held st) -> degenerate a b c = false ->
  Z.of_nat (length (extend (extend (extend (held st) a) b) c))
  = numVertices st + 3 - count_found st [a; b; c].
Proof.
  intros Hok Hnd Hd. apply degenerate_false in Hd as (Hab & Hac & Hbc).
  rewrite count_found_hits by assumption.
  rewrite !extend_length_hits, !hits_extend_ne by congruence.
  rewrite held_length by assumption. destruct Hok as [_ ?]. lia.
Qed.

Lemma count_found_range st a b c :
  vertices_ok st -> NoDup (held st) ->
  0 <= count_found st [a; b; c] <= 3.
Proof.
  intros Hok Hnd. rewrite count_found_hits by assumption.
  pose proof (hits_range (held st) a). pose proof (hits_range (held st) b).
  pose proof (hits_range (held st) c). lia.
Qed.

(** ** [insert] on a non-degenerate triangle *)

Lemma cmpBits_max {T : Target} st a b c :
  let m idx := findMSB (Z.lor (Z.lxor (firstVertex st a) idx) 1) in
  cmpBits st a b c = Z.max (m a) (Z.max (m b) (m c)) + 1
  /\ 1 <= cmpBits st a b c <= 32.
Proof.
  intros m. unfold cmpBits. fold (m a) (m b) (m c). rewrite !umax_max.
  pose proof (findMSB_guarded_range (Z.lxor (firstVertex st a) a)).
  pose proof (findMSB_guarded_range (Z.lxor (firstVertex st a) b)).
  pose proof (findMSB_guarded_range (Z.lxor (firstVertex st a) c)).
  fold (m a) (m b) (m c) in *. rewrite wrap32_small by lia. lia.
Qed.

(** The whole effect of [insert] when the table has room for the new
    vertices and the row: it returns; the table is extended by the absent
    indices in order [a], [b], [c]; the row written at [numPrims] resolves to
    the triangle; everything else is kept; the delta width does not exceed
    what [cannotInsertBlock] computes. *)
Lemma insert_spec {T : Target} st a b c :
  well_formed st -> degenerate a b c = false ->
  (length (extend (extend (extend (held st) a) b) c) <= 256)%nat ->
  numPrims st < MAX_PRIMITIVE_COUNT_LIMIT ->
  exists st' row, insert st a b c = Some st'
    /\ held st' = extend (extend (extend (held st) a) b) c
    /\ well_formed st'
    /\ numPrims st' = numPrims st + 1
    /\ primitives st' = <[Z.to_nat (numPrims st) := row]> (primitives st)
    /\ resolves st' row (a, b, c)
    /\ same_config st st'
    /\ numVertexDeltaBits st'
       <= Z.max (numVertexDeltaBits st) (cmpBits st a b c).
Proof.
  intros (Hsz & Hnv & Hnp & Hnd & Hdb) Hd Hroom Hprims.
  destruct Hsz as [Hplen Hvlen].
  assert (vertices_ok st) as Hok by (split; assumption).
  unfold MAX_VERTEX_COUNT_LIMIT, MAX_PRIMITIVE_COUNT_LIMIT in *.
  set (F := firstVertex st a).
  pose proof (extend_length (extend (held st) a) b) as Hl2.
  pose proof (extend_length (extend (extend (held st) a) b) c) as Hl3.
  (* first index *)
  destruct (insert_index_spec st a F) as
    (st1 & t0 & E1 & Hh1 & Hok1 & [Ht0 Hr0] & (Hp1 & Hn1 & Hc1)
     & [Hne1 HF1] & Hd1); [assumption| | | |].
  { destruct (decide (a ∈ held st)) as [|Hout]; [now left|right].
    pose proof (extend_length_hits (held st) a) as Hl. unfold hits in Hl.
    rewrite decide_False, held_length in Hl by assumption.
    unfold MAX_VERTEX_COUNT_LIMIT. lia. }
  { intros E. subst F. unfold firstVertex. now rewrite E. }
  { intros E. subst F. unfold firstVertex.
    destruct (Z.eqb_spec (numVertices st) 0); [contradiction|reflexivity]. }
  (* second index *)
  destruct (insert_index_spec st1 b F) as
    (st2 & t1 & E2 & Hh2 & Hok2 & [Ht1 Hr1] & (Hp2 & Hn2 & Hc2)
     & [Hne2 HF2] & Hd2); [assumption| |contradiction|auto|].
  { destruct (decide (b ∈ held st1)) as [|Hout]; [now left|right].
    pose proof (extend_length_hits (held st1) b) as Hl. unfold hits in Hl.
    rewrite decide_False, held_length in Hl by assumption.
    rewrite Hh1 in Hl. unfold MAX_VERTEX_COUNT_LIMIT. lia. }
  (* third index *)
  destruct (insert_index_spec st2 c F) as
    (st3 & t2 & E3 & Hh3 & Hok3 & [Ht2 Hr2] & (Hp3 & Hn3 & Hc3)
     & [Hne3 HF3] & Hd3); [assumption| |contradiction|auto|].
  { destruct (decide (c ∈ held st2)) as [|Hout]; [now left|right].
    pose proof (extend_length_hits (held st2) c) as Hl. unfold hits in Hl.
    rewrite decide_False, held_length in Hl by assumption.
    rewrite Hh2, Hh1 in Hl. unfold MAX_VERTEX_COUNT_LIMIT. lia. }
  (* the counts of held vertices grow along the three rounds *)
  pose proof (held_length st1 Hok1) as L1.
  pose proof (held_length st2 Hok2) as L2.
  pose proof (held_length st3 Hok3) as L3.
  pose proof Hok1 as [_ B1]. pose proof Hok2 as [_ B2].
  pose proof Hok3 as [Hvlen3 B3].
  unfold MAX_VERTEX_COUNT_LIMIT in *.
  assert (numVertices st1 <= numVertices st2 <= numVertices st3) as Hmono.
  { rewrite Hh2 in L2. rewrite Hh3, Hh2 in L3. rewrite Hh1 in *. lia. }
  assert (held st1 `prefix_of` held st3) as P13.
  { rewrite Hh3, Hh2. etrans; apply extend_prefix. }
  assert (held st2 `prefix_of` held st3) as P23.
  { rewrite Hh3. apply extend_prefix. }
  (* the row *)
  unfold insert. rewrite Hd, E1. cbn [mbind option_bind].
  rewrite E2. cbn [mbind option_bind]. rewrite E3. cbn [mbind option_bind].
  unfold store.
  destruct (decide _) as [_|Hbad];
    [|exfalso; rewrite Hp3, Hp2, Hp1, Hplen, Hn3, Hn2, Hn1 in Hbad; lia].
  cbn [mbind option_bind].
  rewrite !wrap8_small by lia.
  eexists _, (t0, t1, t2). split; [reflexivity|].
  split; [unfold held in *; cbn; now rewrite Hh3, Hh2, Hh1|].
  split.
  { split; [split; cbn; [|assumption]|].
    { rewrite length_insert, Hp3, Hp2, Hp1. exact Hplen. }
    cbn. unfold held; cbn. fold (held st3).
    unfold MAX_VERTEX_COUNT_LIMIT, MAX_PRIMITIVE_COUNT_LIMIT.
    rewrite Hn3, Hn2, Hn1.
    split; [lia|]. split; [rewrite wrap32_small; lia|].
    split; [rewrite Hh3, Hh2, Hh1; now repeat apply extend_NoDup|].
    pose proof (cmpBits_max st a b c) as [Hcmp _].
    cbv zeta in Hcmp. fold F in Hcmp.
    pose proof (findMSB_guarded_range (Z.lxor F a)).
    pose proof (findMSB_guarded_range (Z.lxor F b)).
    pose proof (findMSB_guarded_range (Z.lxor F c)). lia. }
  cbn. rewrite Hn3, Hn2, Hn1.
  split; [apply wrap32_small; lia|].
  split; [now rewrite Hp3, Hp2, Hp1|].
  split.
  { repeat split; try lia.
    - apply held_read; [assumption|lia|].
      eapply prefix_lookup_Some; eassumption.
    - apply held_read; [assumption|lia|].
      eapply prefix_lookup_Some; eassumption.
    - now apply held_read. }
  split.
  { destruct Hc1 as (?&?&?&?), Hc2 as (?&?&?&?), Hc3 as (?&?&?&?).
    repeat split; cbn; congruence. }
  pose proof (cmpBits_max st a b c) as [Hcmp _].
  cbv zeta in Hcmp. fold F in Hcmp. lia.
Qed.

(** ** First-use order *)

Lemma filter_extend_same l x :
  filter (fun y => y <> x) (extend l x) = filter (fun y => y <> x) l.
Proof.
  unfold extend. destruct (decide _); [reflexivity|].
  rewrite filter_app, filter_cons, decide_False by auto.
  rewrite filter_nil. apply app_nil_r.
Qed.

Lemma filter_extend_other l x y :
  x <> y ->
  filter (fun z => z <> y) (extend l x) = extend (filter (fun z => z <> y) l) x.
Proof.
  intros Hne. unfold extend.
  destruct (decide (x ∈ l)) as [Hin|Hout].
  - rewrite decide_True; [reflexivity|]. apply list_elem_of_filter. auto.
  - rewrite decide_False.
    + rewrite filter_app, filter_cons, decide_True by assumption.
      now rewrite filter_nil.
    + rewrite list_elem_of_filter. tauto.
Qed.

Lemma first_use_snoc l x : first_use (l ++ [x]) = extend (first_use l) x.
Proof.
  induction l as [|y l IH]; [reflexivity|].
  cbn [app first_use]. rewrite IH.
  destruct (decide (x = y)) as [->|Hne].
  - rewrite filter_extend_same. unfold extend.
    now rewrite decide_True by apply list_elem_of_here.
  - rewrite filter_extend_other by assumption. unfold extend.
    destruct (decide (x ∈ filter _ (first_use l))) as [Hin|Hout].
    + now rewrite decide_True by (now apply list_elem_of_further).
    + rewrite decide_False; [reflexivity|].
      rewrite elem_of_cons. tauto.
Qed.

Lemma corners_snoc ts a b c :
  corners (ts ++ [(a, b, c)]) = ((corners ts ++ [a]) ++ [b]) ++ [c].
Proof.
  unfold corners. rewrite map_app, concat_app. cbn.
  rewrite <- !app_assoc. reflexivity.
Qed.

Lemma first_use_triangle ts a b c :
  first_use (corners (ts ++ [(a, b, c)]))
  = extend (extend (extend (first_use (corners ts)) a) b) c.
Proof. now rewrite corners_snoc, !first_use_snoc. Qed.

Lemma first_use_elem_of l x : x ∈ first_use l <-> x ∈ l.
Proof.
  induction l as [|y l IH]; [reflexivity|].
  cbn [first_use]. rewrite !elem_of_cons, list_elem_of_filter, IH.
  destruct (decide (x = y)); tauto.
Qed.

Lemma first_use_NoDup l : NoDup (first_use l).
Proof.
  induction l as [|y l IH]; [constructor|].
  cbn [first_use]. apply NoDup_cons. split.
  - rewrite list_elem_of_filter. tauto.
  - now apply NoDup_filter.
Qed.

(** ** Runs of the protocol *)

Lemma kept_snoc_degenerate ts a b c :
  degenerate a b c = true -> kept (ts ++ [(a, b, c)]) = kept ts.
Proof.
  intros Hd. unfold kept. rewrite filter_app, filter_cons, decide_False.
  - rewrite filter_nil. apply app_nil_r.
  - unfold nondegenerate. congruence.
Qed.

Lemma kept_snoc_nondegenerate ts a b c :
  degenerate a b c = false -> kept (ts ++ [(a, b, c)]) = kept ts ++ [(a, b, c)].
Proof.
  intros Hd. unfold kept.
  now rewrite filter_app, filter_cons, decide_True, filter_nil by exact Hd.
Qed.

Lemma kept_all ts : Forall nondegenerate ts -> kept ts = ts.
Proof.
  intros H. unfold kept. induction H as [|t ts Ht _ IH]; [reflexivity|].
  now rewrite filter_cons, decide_True, IH by assumption.
Qed.

Lemma reset_well_formed st0 :
  length (primitives st0) = Z.to_nat MAX_PRIMITIVE_COUNT_LIMIT ->
  well_formed (reset st0).
Proof.
  intros H. unfold well_formed, arrays_sized, held. cbn.
  rewrite length_replicate.
  unfold MAX_VERTEX_COUNT_LIMIT, MAX_PRIMITIVE_COUNT_LIMIT in *.
  repeat split; try lia; try assumption. constructor.
Qed.

Lemma well_formed_vertices_ok st : well_formed st -> vertices_ok st.
Proof. intros ([_ ?] & ? & _). now split. Qed.

(** A predicate that answers [false] leaves room for the triangle. *)
Lemma checked_room {T : Target} k st a b c :
  k <> NoCheck -> well_formed st ->
  maxVertexSize st <= MAX_VERTEX_COUNT_LIMIT ->
  maxPrimitiveSize st <= MAX_PRIMITIVE_COUNT_LIMIT ->
  refuses k st (a, b, c) = false -> degenerate a b c = false ->
  Z.of_nat (length (extend (extend (extend (held st) a) b) c))
    <= maxVertexSize st
  /\ numPrims st + 1 <= maxPrimitiveSize st.
Proof.
  intros Hk Hwf Hmv Hmp Href Hd.
  pose proof (well_formed_vertices_ok st Hwf) as Hok.
  destruct Hwf as (_ & Hnv & Hnp & Hnd & _).
  unfold MAX_VERTEX_COUNT_LIMIT, MAX_PRIMITIVE_COUNT_LIMIT in *.
  pose proof (count_found_range st a b c Hok Hnd) as Hf.
  rewrite extend3_length by assumption.
  assert ((maxVertexSize st <?
             wrap32 (wrap32 (numVertices st + 3) - count_found st [a; b; c]))
          = false
          /\ (maxPrimitiveSize st <? wrap32 (numPrims st + 1)) = false)
    as [Hv Hp].
  { destruct k; [contradiction| |]; cbn in Href.
    - unfold cannotInsert in Href. rewrite Hd in Href.
      now apply orb_false_iff in Href.
    - unfold cannotInsertBlock in Href. rewrite Hd in Href.
      apply orb_false_iff in Href as [Href _].
      apply orb_false_iff in Href. tauto. }
  rewrite (wrap32_small (numVertices st + 3)) in Hv by lia.
  rewrite wrap32_small in Hv by lia. rewrite wrap32_small in Hp by lia.
  apply Z.ltb_ge in Hv, Hp. lia.
Qed.

Lemma resolves_prefix st st' row t :
  vertices_ok st -> vertices_ok st' -> held st `prefix_of` held st' ->
  resolves st row t -> resolves st' row t.
Proof.
  intros Hok Hok' Hpre. destruct row as [[la lb] lc], t as [[a b] c].
  assert (forall l x, 0 <= l < numVertices st /\ read (vertices st) l = x ->
                      0 <= l < numVertices st' /\ read (vertices st') l = x)
    as Hone.
  { intros l x [Hl Hr]. apply held_read in Hr; [|assumption|assumption].
    pose proof (prefix_lookup_Some _ _ _ _ Hr Hpre) as Hr'.
    pose proof (lookup_lt_Some _ _ _ Hr') as Hlt.
    rewrite held_length in Hlt by assumption.
    assert (0 <= l < numVertices st') as Hl' by lia.
    split; [assumption|]. now apply held_read. }
  cbn. intros (? & ? & ?). auto.
Qed.

(** The invariant of a checked run from an empty cache. *)
Lemma run_invariant {T : Target} k init ts st :
  k <> NoCheck -> well_formed init ->
  numPrims init = 0 -> numVertices init = 0 ->
  0 <= maxVertexSize init <= MAX_VERTEX_COUNT_LIMIT ->
  0 <= maxPrimitiveSize init <= MAX_PRIMITIVE_COUNT_LIMIT ->
  run k init ts st ->
  well_formed st /\ same_config init st /\ within_limits st
  /\ tracks (kept ts) st.
Proof.
  intros Hk Hwf Hp0 Hv0 Hmv Hmp Hrun.
  induction Hrun as [|ts st a b c st' Hrun IH Href Hins].
  - split; [assumption|]. split; [repeat split|].
    split; [unfold within_limits; lia|].
    unfold tracks, held. rewrite Hp0, Hv0. cbn.
    split; [reflexivity|]. split; [reflexivity|].
    intros p t Hl. discriminate.
  - destruct IH as (Hwf' & Hcfg & Hlim & Hnp & Hheld & Hrows).
    destruct (degenerate a b c) eqn:Hd.
    { rewrite kept_snoc_degenerate by assumption.
      unfold insert in Hins. rewrite Hd in Hins. injection Hins as <-.
      split; [exact Hwf'|]. split; [exact Hcfg|]. split; [exact Hlim|].
      unfold tracks. auto. }
    rewrite kept_snoc_nondegenerate by assumption.
    destruct Hcfg as (Hc1 & Hc2 & Hc3 & Hc4).
    destruct (checked_room k st a b c) as [Hroomv Hroomp];
      try assumption; try lia.
    unfold MAX_VERTEX_COUNT_LIMIT, MAX_PRIMITIVE_COUNT_LIMIT in *.
    destruct (insert_spec st a b c) as
      (st'' & row & Hins' & Hh & Hwf'' & Hn & Hpr & Hres & Hcfg' & _);
      [assumption|assumption|lia|unfold MAX_PRIMITIVE_COUNT_LIMIT; lia|].
    rewrite Hins in Hins'. injection Hins' as <-.
    pose proof (well_formed_vertices_ok _ Hwf') as Hok.
    pose proof (well_formed_vertices_ok _ Hwf'') as Hok'.
    destruct Hcfg' as (Hd1 & Hd2 & Hd3 & Hd4).
    split; [assumption|]. split; [repeat split; congruence|].
    split.
    { unfold within_limits. rewrite Hd1, Hd2, Hn. split; [|lia].
      rewrite <- Hh in Hroomv. rewrite held_length in Hroomv by assumption.
      destruct Hok' as [_ ?]. lia. }
    assert (Z.to_nat (numPrims st) = length (kept ts)) as Hlen by lia.
    split; [rewrite Hn, length_app; cbn; lia|].
    split; [now rewrite Hh, Hheld, first_use_triangle|].
    intros p t Hl. apply lookup_snoc_Some in Hl as [[Hlt Hl]|[-> <-]].
    + destruct (Hrows p t Hl) as (r & Hr & Hres').
      exists r. split.
      * rewrite Hpr, list_lookup_insert_ne by lia. assumption.
      * eapply resolves_prefix; [exact Hok|exact Hok'| |exact Hres'].
        rewrite Hh. etrans; [|apply extend_prefix].
        etrans; apply extend_prefix.
    + exists row. split; [|assumption].
      rewrite Hpr, <- Hlen. apply list_lookup_insert_eq.
      destruct Hwf' as ([Hpl _] & _ & ? & _).
      unfold MAX_PRIMITIVE_COUNT_LIMIT in *. lia.
Qed.

(** [feed] computes runs. *)
Lemma run_cons {T : Target} k st a b c st1 ts st' :
  refuses k st (a, b, c) = false -> insert st a b c = Some st1 ->
  run k st1 ts st' -> run k st ((a, b, c) :: ts) st'.
Proof.
  intros Href Hins Hrun. induction Hrun as [|ts st2 a' b' c' st3 _ IH Hr Hi].
  - apply (run_insert k st [] st a b c st1); [constructor|assumption..].
  - rewrite app_comm_cons. eapply run_insert; eassumption.
Qed.

Lemma feed_run {T : Target} k st ts st' :
  feed k st ts = Some st' -> run k st ts st'.
Proof.
  revert st. induction ts as [|[[a b] c] ts IH]; intros st H.
  - injection H as <-. constructor.
  - cbn [feed] in H. destruct (refuses k st (a, b, c)) eqn:Href; [discriminate|].
    destruct (insert st a b c) as [st1|] eqn:Hins; [|discriminate].
    cbn in H. eapply run_cons; eauto.
Qed.

(** ** The protocol keeps the cache within its limits *)

(** Under the protocol [insert] returns: no store leaves the arrays. *)
Lemma checked_insert_returns {T : Target} k st a b c :
  k <> NoCheck -> well_formed st ->
  maxVertexSize st <= MAX_VERTEX_COUNT_LIMIT ->
  maxPrimitiveSize st <= MAX_PRIMITIVE_COUNT_LIMIT ->
  refuses k st (a, b, c) = false ->
  exists st', insert st a b c = Some st'.
Proof.
  intros Hk Hwf Hmv Hmp Href.
  destruct (degenerate a b c) eqn:Hd.
  { exists st. unfold insert. now rewrite Hd. }
  destruct (checked_room k st a b c) as [Hv Hp]; try assumption.
  unfold MAX_VERTEX_COUNT_LIMIT, MAX_PRIMITIVE_COUNT_LIMIT in *.
  destruct (insert_spec st a b c) as (st' & _ & Hins & _);
    [assumption|assumption|lia|unfold MAX_PRIMITIVE_COUNT_LIMIT; lia|].
  eauto.
Qed.

(** C3.  From [reset], with both maxima at most 256 and every [insert]
    preceded by [cannotInsert] answering [false]: every cache of the run
    (a run on a prefix gives the intermediate ones) has
    [numVertices <= maxVertexSize] and [numPrims <= maxPrimitiveSize], the
    configuration is the initial one, and the next checked [insert] returns
    with both bounds still in force. *)
Theorem limits_hold_under_protocol {T : Target}
    (st0 : PrimitiveCache) (ts : list triangle) (st : PrimitiveCache) :
  length (primitives st0) = Z.to_nat MAX_PRIMITIVE_COUNT_LIMIT ->
  0 <= maxVertexSize st0 <= MAX_VERTEX_COUNT_LIMIT ->
  0 <= maxPrimitiveSize st0 <= MAX_PRIMITIVE_COUNT_LIMIT ->
  run CapacityOnly (reset st0) ts st ->
  (numVertices st <= maxVertexSize st /\ numPrims st <= maxPrimitiveSize st)
  /\ same_config st0 st
  /\ forall a b c, cannotInsert st a b c = false ->
       exists st', insert st a b c = Some st'
         /\ numVertices st' <= maxVertexSize st'
         /\ numPrims st' <= maxPrimitiveSize st'.
Proof.
  intros Hlen Hmv Hmp Hrun.
  assert (forall ts st, run CapacityOnly (reset st0) ts st ->
            well_formed st /\ same_config st0 st /\ within_limits st) as Hinv.
  { intros ts' st' Hrun'.
    destruct (run_invariant CapacityOnly (reset st0) ts' st')
      as (Hwf & Hcfg & Hlim & _); try assumption; try reflexivity.
    - discriminate.
    - now apply reset_well_formed.
    - auto. }
  destruct (Hinv ts st Hrun) as (Hwf & Hcfg & Hlim).
  split; [exact Hlim|]. split; [exact Hcfg|].
  intros a b c Href. destruct Hcfg as (Hc1 & Hc2 & _).
  destruct (checked_insert_returns CapacityOnly st a b c) as [st' Hins];
    [discriminate|assumption|lia|lia|exact Href|].
  exists st'. split; [assumption|].
  apply (Hinv (ts ++ [(a, b, c)]) st').
  eapply run_insert; eassumption.
Qed.

Lemma limits_hold_under_protocol_witness :
  exists st,
    feed (T := gcc_x86) CapacityOnly (reset unbudgeted_cache)
      [(0, 1, 2); (2, 1, 3)] = Some st
    /\ numVertices st <= maxVertexSize st
    /\ numPrims st <= maxPrimitiveSize st.
Proof.
  eexists. split; [vm_compute; reflexivity|].
  eapply (limits_hold_under_protocol (T := gcc_x86) unbudgeted_cache
            [(0, 1, 2); (2, 1, 3)]).
  - reflexivity.
  - vm_compute. split; discriminate.
  - vm_compute. split; discriminate.
  - apply feed_run. vm_compute. reflexivity.
Defined.

(** ** Round trip through the vertex table *)

(** C2.  A stream of non-degenerate triangles processed from [reset] under
    the protocol, both maxima at most 256: [numPrims] counts the triangles;
    row [p] holds three local indices below [numVertices] that [vertices]
    maps back to the three original indices of triangle [p]; the held
    vertices are pairwise distinct, as many as [numVertices], and they are
    the distinct original indices of the stream in order of first use. *)
Theorem rows_resolve_to_the_stream {T : Target}
    (st0 : PrimitiveCache) (ts : list triangle) (st : PrimitiveCache) :
  length (primitives st0) = Z.to_nat MAX_PRIMITIVE_COUNT_LIMIT ->
  0 <= maxVertexSize st0 <= MAX_VERTEX_COUNT_LIMIT ->
  0 <= maxPrimitiveSize st0 <= MAX_PRIMITIVE_COUNT_LIMIT ->
  Forall nondegenerate ts ->
  run CapacityOnly (reset st0) ts st ->
  numPrims st = Z.of_nat (length ts)
  /\ (forall (p : nat) t, ts !! p = Some t ->
        exists row, primitives st !! p = Some row /\ resolves st row t)
  /\ NoDup (held st)
  /\ numVertices st = Z.of_nat (length (held st))
  /\ held st = first_use (corners ts).
Proof.
  intros Hlen Hmv Hmp Hnd Hrun.
  destruct (run_invariant CapacityOnly (reset st0) ts st)
    as (Hwf & _ & _ & Ht); try assumption; try reflexivity.
  { discriminate. }
  { now apply reset_well_formed. }
  rewrite kept_all in Ht by assumption.
  destruct Ht as (Hn & Hh & Hrows).
  split; [assumption|]. split; [assumption|].
  split; [apply Hwf|].
  split; [|assumption].
  rewrite held_length by now apply well_formed_vertices_ok.
  destruct Hwf as (_ & ? & _). lia.
Qed.

Lemma rows_resolve_to_the_stream_witness :
  exists st,
    feed (T := gcc_x86) CapacityOnly (reset unbudgeted_cache)
      [(7, 3, 9); (9, 3, 4)] = Some st
    /\ held st = first_use (corners [(7, 3, 9); (9, 3, 4)])
    /\ take 2 (primitives st) = [(0, 1, 2); (2, 1, 3)].
Proof.
  eexists. split; [vm_compute; reflexivity|].
  split; [|vm_compute; reflexivity].
  eapply (rows_resolve_to_the_stream (T := gcc_x86) unbudgeted_cache
            [(7, 3, 9); (9, 3, 4)]).
  - reflexivity.
  - vm_compute. split; discriminate.
  - vm_compute. split; discriminate.
  - repeat constructor.
  - apply feed_run. vm_compute. reflexivity.
Defined.

(** ** The bit budget *)

(** [extend] always holds the value it was given. *)
Lemma extend_nonempty l x : (1 <= length (extend l x))%nat.
Proof.
  assert (x ∈ extend l x) as Hin by (apply elem_of_extend; now right).
  destruct (extend l x); [inversion Hin|cbn; lia].
Qed.

(** C4, as amended.  In every cache of a checked run from [reset] (either
    predicate, both maxima at most 256, [primitiveBits] small enough that a
    full block does not overflow 32 bits), for a non-degenerate triangle:
    if [cannotInsertBlock] answers [false] then [insert] returns and
    [fitsBlock] holds of the returned cache, so the closing assertion of
    [insert] passes. *)
Theorem fitsBlock_after_checked_insert {T : Target}
    (k : Check) (st0 : PrimitiveCache) (ts : list triangle)
    (st : PrimitiveCache) (a b c : Z) :
  k <> NoCheck ->
  length (primitives st0) = Z.to_nat MAX_PRIMITIVE_COUNT_LIMIT ->
  0 <= maxVertexSize st0 <= MAX_VERTEX_COUNT_LIMIT ->
  0 <= maxPrimitiveSize st0 <= MAX_PRIMITIVE_COUNT_LIMIT ->
  0 <= primitiveBits st0 ->
  3 * 255 * primitiveBits st0 + 255 * 32 < 2 ^ 32 ->
  run k (reset st0) ts st ->
  degenerate a b c = false ->
  cannotInsertBlock st a b c = false ->
  exists st', insert st a b c = Some st' /\ fitsBlock st' = true.
Proof.
  intros Hk Hlen Hmv Hmp Hpb0 Hpb Hrun Hd Hcheck.
  destruct (run_invariant k (reset st0) ts st)
    as (Hwf & Hcfg & _ & _); try assumption; try reflexivity.
  { now apply reset_well_formed. }
  destruct Hcfg as (Hc1 & Hc2 & Hc3 & Hc4). cbn in Hc1, Hc2, Hc3, Hc4.
  pose proof (well_formed_vertices_ok st Hwf) as Hok.
  destruct (checked_room BitBudget st a b c) as [Hroomv Hroomp];
    [discriminate|assumption|lia|lia|exact Hcheck|assumption|].
  unfold MAX_VERTEX_COUNT_LIMIT, MAX_PRIMITIVE_COUNT_LIMIT in *.
  destruct (insert_spec st a b c) as
    (st' & row & Hins & Hh & Hwf' & Hn & _ & _ & Hcfg' & Hdelta);
    [assumption|assumption|lia|unfold MAX_PRIMITIVE_COUNT_LIMIT; lia|].
  exists st'. split; [assumption|].
  destruct Hcfg' as (_ & _ & Hpb' & Hmb').
  pose proof (well_formed_vertices_ok st' Hwf') as Hok'.
  pose proof (held_length st' Hok') as Hlen'.
  pose proof (extend3_length st a b c Hok) as Hl3.
  destruct Hwf as (_ & Hnv & Hnp & Hnodup & Hdb).
  destruct Hwf' as (_ & Hnv' & Hnp' & _ & Hdb').
  specialize (Hl3 Hnodup Hd).
  pose proof (count_found_range st a b c Hok Hnodup) as Hf.
  pose proof (extend_nonempty (extend (extend (held st) a) b) c) as Hne.
  pose proof (cmpBits_max st a b c) as [_ Hcmp].
  unfold MAX_VERTEX_COUNT_LIMIT, MAX_PRIMITIVE_COUNT_LIMIT in *.
  (* what the predicate compared with the budget *)
  unfold cannotInsertBlock in Hcheck. rewrite Hd in Hcheck.
  apply orb_false_iff in Hcheck as [_ Hbits]. apply Z.ltb_ge in Hbits.
  unfold newBits in Hbits. rewrite umax_max in Hbits.
  set (found := count_found st [a; b; c]) in *.
  set (delta := Z.max (cmpBits st a b c) (numVertexDeltaBits st)) in *.
  set (pb := primitiveBits st) in *.
  assert (numVertices st' = numVertices st + 3 - found) as Hnv3.
  { rewrite Hh in Hlen'. lia. }
  assert (0 <= (numVertices st' - 1) * numVertexDeltaBits st'
          <= (numVertices st' - 1) * delta) as Hvb.
  { split; [apply Z.mul_nonneg_nonneg; lia|].
    apply Z.mul_le_mono_nonneg_l; lia. }
  assert ((numVertices st' - 1) * delta <= 255 * 32) as Hvmax.
  { transitivity (255 * delta); [apply Z.mul_le_mono_nonneg_r; lia|lia]. }
  assert (0 <= numPrims st * 3 * pb <= 3 * 255 * pb) as Hpmax.
  { split; [apply Z.mul_nonneg_nonneg; lia|].
    replace (3 * 255 * pb) with (255 * 3 * pb) by lia.
    apply Z.mul_le_mono_nonneg_r; lia. }
  rewrite (wrap32_small (numVertices st + 3)) in Hbits by lia.
  rewrite (wrap32_small (numVertices st + 3 - found)) in Hbits by lia.
  rewrite (wrap32_small (numPrims st + 1)) in Hbits by lia.
  rewrite <- Hnv3 in Hbits.
  replace (numPrims st + 1 - 1) with (numPrims st) in Hbits by lia.
  rewrite (wrap32_small (numVertices st' - 1)) in Hbits by lia.
  rewrite (wrap32_small (numPrims st)) in Hbits by lia.
  rewrite (wrap32_small (numPrims st * 3)) in Hbits by lia.
  rewrite (wrap32_small ((numVertices st' - 1) * delta)) in Hbits by lia.
  rewrite (wrap32_small (numPrims st * 3 * pb)) in Hbits by lia.
  rewrite wrap32_small in Hbits by lia.
  (* what the assertion compares with it *)
  unfold fitsBlock. rewrite Hn, Hpb', Hmb'. fold pb.
  replace (numPrims st + 1 - 1) with (numPrims st) by lia.
  rewrite (wrap32_small (numVertices st' - 1)) by lia.
  rewrite (wrap32_small (numPrims st)) by lia.
  rewrite (wrap32_small (numPrims st * 3)) by lia.
  rewrite (wrap32_small ((numVertices st' - 1) * numVertexDeltaBits st'))
    by lia.
  rewrite (wrap32_small (numPrims st * 3 * pb)) by lia.
  rewrite wrap32_small by lia.
  apply Z.leb_le. lia.
Qed.

Lemma fitsBlock_after_checked_insert_witness :
  exists st',
    insert (T := gcc_x86) (reset budgeted_cache) 0 1 2 = Some st'
    /\ fitsBlock st' = true.
Proof.
  apply (fitsBlock_after_checked_insert (T := gcc_x86)
           BitBudget budgeted_cache [] (reset budgeted_cache) 0 1 2).
  - discriminate.
  - reflexivity.
  - vm_compute. split; discriminate.
  - vm_compute. split; discriminate.
  - vm_compute. discriminate.
  - vm_compute. reflexivity.
  - constructor.
  - reflexivity.
  - vm_compute. reflexivity.
Defined.

(** C4, as stated, fails on a degenerate triangle.  On the cache just
    [reset], with a budget of 1000 bits, [cannotInsertBlock(5,5,9)] answers
    [false] and [insert(5,5,9)] returns the cache untouched, on which
    [fitsBlock()] is false: [numPrims - 1] wraps to [2^32 - 1]. *)
Lemma fitsBlock_fails_after_skipped_triangle :
  run (T := gcc_x86) BitBudget (reset budgeted_cache) [] (reset budgeted_cache)
  /\ empty (reset budgeted_cache) = true
  /\ cannotInsertBlock (T := gcc_x86) (reset budgeted_cache) 5 5 9 = false
  /\ insert (T := gcc_x86) (reset budgeted_cache) 5 5 9
     = Some (reset budgeted_cache)
  /\ fitsBlock (reset budgeted_cache) = false.
Proof.
  split; [constructor|]. repeat split.
Qed.

(** Why the amended statement bounds [primitiveBits]: with
    [primitiveBits = 2^32 - 20] the sum wraps in the predicate and not in the
    assertion.  On the branch without [_MSC_VER], after (0, 2^20, 2^21) the
    triangle (0, 2^20, 2^22) passes [cannotInsertBlock] against a budget of
    100 bits and [fitsBlock] is false afterwards. *)
Example fitsBlock_wraps_with_oversized_primitiveBits :
  let st0 := configure PrimitiveCache_default 256 256 (2 ^ 32 - 20) 100 in
  exists st1 st2,
    feed (T := gcc_x86) BitBudget (reset st0) [(0, 2 ^ 20, 2 ^ 21)] = Some st1
    /\ cannotInsertBlock (T := gcc_x86) st1 0 (2 ^ 20) (2 ^ 22) = false
    /\ insert (T := gcc_x86) st1 0 (2 ^ 20) (2 ^ 22) = Some st2
    /\ fitsBlock st2 = false.
Proof.
  eexists _, _. split; [vm_compute; reflexivity|].
  split; [vm_compute; reflexivity|].
  split; [vm_compute; reflexivity|].
  vm_compute. reflexivity.
Qed.

(** ** A reset cache against a new one *)

Lemma fold_left_ext_in {A B} (f g : A -> B -> A) (l : list B) acc :
  (forall acc x, x ∈ l -> f acc x = g acc x) ->
  fold_left f l acc = fold_left g l acc.
Proof.
  revert acc. induction l as [|x l IH]; intros acc H; [reflexivity|].
  cbn [fold_left]. rewrite H by apply list_elem_of_here.
  apply IH. intros acc' y Hy. apply H. now apply list_elem_of_further.
Qed.

Lemma find_ext_in {A} (f g : A -> bool) (l : list A) :
  (forall x, x ∈ l -> f x = g x) -> find f l = find g l.
Proof.
  induction l as [|x l IH]; intros H; [reflexivity|].
  cbn [find]. rewrite H by apply list_elem_of_here.
  destruct (g x); [reflexivity|].
  apply IH. intros y Hy. apply H. now apply list_elem_of_further.
Qed.

Lemma option_Forall2_bind {A B C D} (R : A -> B -> Prop) (S : C -> D -> Prop)
    (m1 : option A) (m2 : option B) (f : A -> option C) (g : B -> option D) :
  option_Forall2 R m1 m2 ->
  (forall x y, R x y -> option_Forall2 S (f x) (g y)) ->
  option_Forall2 S (m1 ≫= f) (m2 ≫= g).
Proof.
  intros [x y Hxy|] H; cbn; [now apply H|constructor].
Qed.

(** Below [numVertices] the two tables read alike. *)
Lemma alike_read s1 s2 v :
  alike s1 s2 -> 0 <= v < numVertices s1 ->
  read (vertices s1) v = read (vertices s2) v.
Proof.
  intros ((_ & Hn & _ & _ & _ & _ & Hh) & _) Hv. unfold read.
  rewrite <- (lookup_take_lt (vertices s1) (Z.to_nat (numVertices s1)))
    by lia.
  rewrite <- (lookup_take_lt (vertices s2) (Z.to_nat (numVertices s2)))
    by lia.
  fold (held s1) (held s2). now rewrite Hh.
Qed.

Lemma alike_count_found s1 s2 indices :
  alike s1 s2 -> count_found s1 indices = count_found s2 indices.
Proof.
  intros H. pose proof H as ((_ & Hn & _) & _).
  unfold count_found. rewrite <- Hn.
  apply fold_left_ext_in. intros acc v Hv. apply elem_of_seqZ in Hv.
  now rewrite (alike_read s1 s2 v) by (assumption || lia).
Qed.

Lemma alike_cannotInsert s1 s2 a b c :
  alike s1 s2 -> cannotInsert s1 a b c = cannotInsert s2 a b c.
Proof.
  intros H. pose proof H as ((Hp & Hn & _ & _ & (Hmv & Hmp & _) & _) & _).
  unfold cannotInsert.
  now rewrite (alike_count_found s1 s2) , Hp, Hn, Hmv, Hmp by assumption.
Qed.

Lemma alike_firstVertex s1 s2 a :
  alike s1 s2 -> firstVertex s1 a = firstVertex s2 a.
Proof.
  intros H. pose proof H as ((_ & Hn & _) & _ & _ & Hb & _).
  unfold firstVertex. rewrite <- Hn.
  destruct (Z.eqb_spec (numVertices s1) 0); [reflexivity|].
  apply alike_read; [assumption|lia].
Qed.

Lemma alike_cannotInsertBlock {T : Target} s1 s2 a b c :
  alike s1 s2 -> cannotInsertBlock s1 a b c = cannotInsertBlock s2 a b c.
Proof.
  intros H.
  pose proof H as ((Hp & Hn & Hd & _ & (Hmv & Hmp & Hpb & Hmb) & _) & _).
  unfold cannotInsertBlock, newBits, cmpBits.
  now rewrite (alike_count_found s1 s2), (alike_firstVertex s1 s2),
    Hp, Hn, Hd, Hmv, Hmp, Hpb, Hmb by assumption.
Qed.

Lemma alike_refuses {T : Target} k s1 s2 t :
  alike s1 s2 -> refuses k s1 t = refuses k s2 t.
Proof.
  intros H. destruct t as [[a b] c], k; cbn.
  - reflexivity.
  - now apply alike_cannotInsert.
  - now apply alike_cannotInsertBlock.
Qed.

Lemma alike_fitsBlock s1 s2 : alike s1 s2 -> fitsBlock s1 = fitsBlock s2.
Proof.
  intros ((Hp & Hn & Hd & _ & (_ & _ & Hpb & Hmb) & _) & _).
  unfold fitsBlock. now rewrite Hp, Hn, Hd, Hpb, Hmb.
Qed.

(** Appending at position [n] extends the first [n] entries by one. *)
Lemma take_after_insert {A} (l : list A) (n : nat) (x : A) :
  (n < length l)%nat -> take (S n) (<[n := x]> l) = take n l ++ [x].
Proof.
  intros H. rewrite (take_S_r _ _ x).
  - now rewrite take_insert_ge by lia.
  - now apply list_lookup_insert_eq.
Qed.

Lemma alike_insert_index {T : Target} s1 s2 idx :
  alike s1 s2 ->
  option_Forall2 (fun r1 r2 => alike r1.1 r2.1 /\ r1.2 = r2.2)
    (insert_index s1 idx) (insert_index s2 idx).
Proof.
  intros H.
  pose proof H as
    ((Hp & Hn & Hd & Ha & Hcfg & Hrows & Hheld)
     & [Hpl1 Hvl1] & [Hpl2 Hvl2] & Hnv & Hnp).
  unfold insert_index. rewrite <- Hn.
  rewrite (find_ext_in _ (fun v => idx =? read (vertices s2) v)).
  2:{ intros v Hv. apply elem_of_seqZ in Hv.
      now rewrite (alike_read s1 s2 v) by (assumption || lia). }
  destruct (find _ _) as [v|]; [constructor; cbn; auto|].
  unfold store. rewrite Hvl1, Hvl2.
  destruct (decide _) as [Hin|]; [|constructor].
  cbn [mbind option_bind]. constructor. cbn [fst snd]. split; [|reflexivity].
  unfold MAX_VERTEX_COUNT_LIMIT, MAX_PRIMITIVE_COUNT_LIMIT in *.
  assert (Z.to_nat (wrap32 (numVertices s1 + 1))
          = S (Z.to_nat (numVertices s1))) as Hk
    by (rewrite wrap32_small; lia).
  split; [|split; [|split; [|split]]].
  - unfold obs_eq, rows, held; cbn.
    rewrite Hk, !take_after_insert by lia.
    unfold held in Hheld. unfold rows in Hrows. rewrite <- Hn in Hheld.
    rewrite Hheld, Hrows, Hp, Hd, Ha.
    split; [reflexivity|]. split; [reflexivity|]. split.
    { destruct (Z.eqb_spec (numVertices s1) 0); [reflexivity|].
      assert (Z.to_nat (numVertices s1) <> Z.to_nat 0) as Hz by lia.
      assert (read (vertices s1) 0 = read (vertices s2) 0) as Hr0
        by (apply alike_read; [assumption|clear - n Hnv; lia]).
      unfold read in *.
      rewrite (list_lookup_insert_ne (vertices s1)) by exact Hz.
      rewrite (list_lookup_insert_ne (vertices s2)) by exact Hz.
      now rewrite Hr0. }
    split; [reflexivity|]. split; [exact Hcfg|]. split; reflexivity.
  - split; cbn; [assumption|]. now rewrite length_insert.
  - split; cbn; [assumption|]. now rewrite length_insert.
  - cbn. unfold MAX_VERTEX_COUNT_LIMIT. rewrite wrap32_small; lia.
  - cbn. assumption.
Qed.

Lemma alike_insert {T : Target} s1 s2 a b c :
  alike s1 s2 -> option_Forall2 alike (insert s1 a b c) (insert s2 a b c).
Proof.
  intros H. unfold insert.
  destruct (degenerate a b c); [now constructor|].
  eapply option_Forall2_bind; [now apply alike_insert_index|].
  intros [x1 t0] [y1 t0'] [H1 E1]. cbn in H1, E1. subst t0'.
  eapply option_Forall2_bind; [now apply alike_insert_index|].
  intros [x2 t1] [y2 t1'] [H2 E2]. cbn in H2, E2. subst t1'.
  eapply option_Forall2_bind; [now apply alike_insert_index|].
  intros [x3 t2] [y3 t2'] [H3 E3]. cbn in H3, E3. subst t2'.
  destruct H3 as
    ((Hp & Hn & Hd & Ha & Hcfg & Hrows & Hheld)
     & [Hpl1 Hvl1] & [Hpl2 Hvl2] & Hnv & Hnp).
  unfold store. rewrite <- Hp, Hpl1, Hpl2.
  destruct (decide _) as [Hin|]; [|constructor].
  cbn [mbind option_bind]. constructor.
  unfold MAX_VERTEX_COUNT_LIMIT, MAX_PRIMITIVE_COUNT_LIMIT in *.
  assert (Z.to_nat (wrap32 (numPrims x3 + 1)) = S (Z.to_nat (numPrims x3)))
    as Hk by (rewrite wrap32_small; lia).
  split; [|split; [|split; [|split]]].
  - unfold obs_eq, rows, held; cbn.
    rewrite Hk, !take_after_insert by lia.
    unfold held in Hheld. unfold rows in Hrows. rewrite <- Hp in Hrows.
    rewrite Hheld, Hrows, Hn, Hd, Ha.
    split; [reflexivity|]. split; [reflexivity|]. split; [reflexivity|].
    split; [reflexivity|]. split; [exact Hcfg|]. split; reflexivity.
  - split; cbn; [|assumption]. now rewrite length_insert.
  - split; cbn; [|assumption]. now rewrite length_insert.
  - cbn. assumption.
  - cbn. unfold MAX_PRIMITIVE_COUNT_LIMIT. rewrite wrap32_small; lia.
Qed.

Lemma alike_feed {T : Target} k ts s1 s2 :
  alike s1 s2 -> option_Forall2 alike (feed k s1 ts) (feed k s2 ts).
Proof.
  revert s1 s2. induction ts as [|[[a b] c] ts IH]; intros s1 s2 H.
  - now constructor.
  - cbn [feed]. rewrite (alike_refuses k s1 s2) by assumption.
    destruct (refuses k s2 (a, b, c)); [constructor|].
    eapply option_Forall2_bind; [now apply alike_insert|]. exact IH.
Qed.

Lemma fresh_alike_reset used :
  length (primitives used) = Z.to_nat MAX_PRIMITIVE_COUNT_LIMIT ->
  alike (fresh_like used) (reset used).
Proof.
  intros Hlen. unfold alike, obs_eq, same_config, arrays_sized, rows, held.
  cbn. rewrite !length_replicate.
  unfold MAX_VERTEX_COUNT_LIMIT, MAX_PRIMITIVE_COUNT_LIMIT in *.
  repeat split; try reflexivity; try assumption; lia.
Qed.

(** C9.  The same stream, offered under the same protocol (no predicate,
    [cannotInsert] or [cannotInsertBlock]) to a freshly constructed cache and
    to a used cache of the same configuration after [reset], stops at the
    same triangle or runs to the end in both, and then the counters, the two
    bit widths, the configuration, [primitives[0 .. numPrims)] and
    [vertices[0 .. numVertices)] are equal. *)
Theorem reset_cache_runs_like_a_new_one {T : Target}
    (k : Check) (used : PrimitiveCache) (ts : list triangle) :
  length (primitives used) = Z.to_nat MAX_PRIMITIVE_COUNT_LIMIT ->
  option_Forall2 obs_eq (feed k (fresh_like used) ts)
                        (feed k (reset used) ts).
Proof.
  intros Hlen.
  pose proof (alike_feed k ts _ _ (fresh_alike_reset used Hlen)) as H.
  destruct H as [x y Hxy|]; constructor. apply Hxy.
Qed.

Lemma reset_cache_runs_like_a_new_one_witness :
  option_Forall2 obs_eq
    (feed (T := gcc_x86) CapacityOnly (fresh_like used_cache)
       [(4, 9, 3); (3, 9, 11)])
    (feed (T := gcc_x86) CapacityOnly (reset used_cache)
       [(4, 9, 3); (3, 9, 11)]).
Proof.
  apply (reset_cache_runs_like_a_new_one (T := gcc_x86) CapacityOnly
           used_cache [(4, 9, 3); (3, 9, 11)]).
  vm_compute. reflexivity.
Defined.

(** The arrays themselves differ after the two runs: beyond the counters the
    reset cache keeps [0xFFFFFFFF] in [vertices] and the rows of its earlier
    use in [primitives]. *)
Example reset_cache_differs_beyond_the_counters :
  (vertices <$> feed (T := gcc_x86) CapacityOnly (fresh_like used_cache)
                  [(4, 9, 3)])
  <> (vertices <$> feed (T := gcc_x86) CapacityOnly (reset used_cache)
                     [(4, 9, 3)])
  /\ (primitives <$> feed (T := gcc_x86) CapacityOnly (fresh_like used_cache)
                       [(4, 9, 3)])
     <> (primitives <$> feed (T := gcc_x86) CapacityOnly (reset used_cache)
                          [(4, 9, 3)]).
Proof. split; vm_compute; discriminate. Qed.

(** * Further properties *)

(** ** [alignedSize] *)

Lemma wrap32_sub_1 x : wrap32 (wrap32 x - 1) = wrap32 (x - 1).
Proof. unfold wrap32. apply Zminus_mod_idemp_l. Qed.

Lemma not32_low_ones k :
  0 <= k <= 32 -> forall n, 0 <= n ->
  Z.testbit (not32 (wrap32 (2 ^ k - 1))) n = (k <=? n) && (n <? 32).
Proof.
  intros Hk n Hn. unfold not32, wrap32.
  assert (0 < 2 ^ k <= 2 ^ 32) as Hp.
  { split; [apply Z.pow_pos_nonneg; lia|apply Z.pow_le_mono_r; lia]. }
  rewrite (Z.mod_small (2 ^ k - 1)) by lia.
  replace (2 ^ k - 1) with (Z.ones k) by (rewrite Z.ones_equiv; lia).
  destruct (Z.ltb_spec n 32).
  - rewrite Z.mod_pow2_bits_low, Z.lnot_spec, Z.testbit_ones_nonneg by lia.
    destruct (Z.ltb_spec n k), (Z.leb_spec k n); try lia; reflexivity.
  - rewrite Z.mod_pow2_bits_high by lia. now rewrite andb_false_r.
Qed.

(** Masking with [~(2^k - 1)] clears the low [k] bits. *)
Lemma align_mask_floor x k :
  0 <= k < 32 -> 0 <= x < 2 ^ 32 ->
  Z.land x (not32 (wrap32 (2 ^ k - 1))) = 2 ^ k * (x / 2 ^ k).
Proof.
  intros Hk Hx.
  rewrite <- Z.shiftr_div_pow2, Z.mul_comm, <- Z.shiftl_mul_pow2 by lia.
  apply Z.bits_inj'. intros n Hn.
  rewrite Z.land_spec, not32_low_ones by lia.
  destruct (Z.leb_spec k n).
  - rewrite Z.shiftl_spec, Z.shiftr_spec by lia.
    replace (n - k + k) with n by lia.
    destruct (Z.ltb_spec n 32); [apply andb_true_r|].
    rewrite andb_false_r. symmetry. apply testbit_above_bound; [lia|].
    split; [lia|]. eapply Z.lt_le_trans; [apply Hx|].
    apply Z.pow_le_mono_r; lia.
  - rewrite Z.shiftl_spec, (Z.testbit_neg_r _ (n - k)) by lia.
    apply andb_false_r.
Qed.

Lemma alignedSize_floor v k :
  0 <= k < 32 ->
  alignedSize v (2 ^ k)
  = 2 ^ k * (wrap32 (v + 2 ^ k - 1) / 2 ^ k).
Proof.
  intros Hk. unfold alignedSize. rewrite wrap32_sub_1.
  apply align_mask_floor; [assumption|apply wrap32_range].
Qed.

(** X1.  For a power-of-two alignment and no 32-bit overflow of
    [v + align - 1], [alignedSize] is [v] rounded up to the next multiple of
    [align]: a multiple of [align], at least [v], less than [v + align]. *)
Theorem alignedSize_rounds_up (v k : Z) :
  0 <= k < 32 -> 0 <= v -> v + 2 ^ k - 1 < 2 ^ 32 ->
  alignedSize v (2 ^ k) = 2 ^ k * ((v + 2 ^ k - 1) / 2 ^ k)
  /\ alignedSize v (2 ^ k) mod 2 ^ k = 0
  /\ v <= alignedSize v (2 ^ k) < v + 2 ^ k.
Proof.
  intros Hk Hv Hfit.
  assert (0 < 2 ^ k) as Hp by (apply Z.pow_pos_nonneg; lia).
  rewrite alignedSize_floor, wrap32_small by lia.
  split; [reflexivity|]. split.
  - rewrite Z.mul_comm. apply Z.mod_mul. lia.
  - pose proof (Z.div_mod (v + 2 ^ k - 1) (2 ^ k) ltac:(lia)).
    pose proof (Z.mod_pos_bound (v + 2 ^ k - 1) (2 ^ k) Hp). lia.
Qed.

Lemma alignedSize_rounds_up_witness :
  alignedSize 13 (2 ^ 4) = 2 ^ 4 * ((13 + 2 ^ 4 - 1) / 2 ^ 4)
  /\ alignedSize 13 (2 ^ 4) mod 2 ^ 4 = 0
  /\ 13 <= alignedSize 13 (2 ^ 4) < 13 + 2 ^ 4.
Proof. apply (alignedSize_rounds_up 13 4); lia. Defined.

(** X2.  When [v + align - 1] overflows 32 bits the sum wraps and the result
    falls below [v] (and below [align - 1]). *)
Theorem alignedSize_wraps_below (v k : Z) :
  0 <= k < 32 -> 0 <= v < 2 ^ 32 -> 2 ^ 32 <= v + 2 ^ k - 1 ->
  alignedSize v (2 ^ k) < 2 ^ k - 1 /\ alignedSize v (2 ^ k) < v.
Proof.
  intros Hk Hv Hover.
  assert (0 < 2 ^ k) as Hp by (apply Z.pow_pos_nonneg; lia).
  assert (2 ^ k <= 2 ^ 31) as Hp31 by (apply Z.pow_le_mono_r; lia).
  rewrite alignedSize_floor by lia.
  assert (wrap32 (v + 2 ^ k - 1) = v + 2 ^ k - 1 - 2 ^ 32) as ->.
  { unfold wrap32. symmetry. apply Z.mod_unique with 1; lia. }
  pose proof (Z.mul_div_le (v + 2 ^ k - 1 - 2 ^ 32) (2 ^ k) Hp). lia.
Qed.

Lemma alignedSize_wraps_below_witness :
  alignedSize (2 ^ 32 - 3) (2 ^ 4) < 2 ^ 4 - 1
  /\ alignedSize (2 ^ 32 - 3) (2 ^ 4) < 2 ^ 32 - 3.
Proof. apply (alignedSize_wraps_below (2 ^ 32 - 3) 4); lia. Defined.

(** ** [pack] and [unpack] *)

Lemma pack_bits {T : Target} v w o n :
  0 <= w <= 31 -> 0 <= o < 32 -> w + o <= 32 -> 0 <= n ->
  Z.testbit (pack v w o) n
  = (o <=? n) && (n <? o + w) && Z.testbit v (n - o).
Proof.
  intros Hw Ho Hfit Hn. unfold pack, shl32.
  destruct (Z.ltb_spec o 32); [|lia].
  rewrite low_mask_ones by lia. unfold wrap32.
  destruct (Z.ltb_spec n 32).
  - rewrite Z.mod_pow2_bits_low, Z.shiftl_spec by lia.
    destruct (Z.leb_spec o n).
    + rewrite Z.land_spec, Z.testbit_ones_nonneg by lia.
      destruct (Z.ltb_spec (n - o) w), (Z.ltb_spec n (o + w)); try lia;
        cbn; now rewrite ?andb_true_r, ?andb_false_r.
    + now rewrite Z.testbit_neg_r by lia.
  - rewrite Z.mod_pow2_bits_high by lia.
    destruct (Z.ltb_spec n (o + w)); [lia|]. now rewrite andb_false_r.
Qed.

Lemma unpack_bits {T : Target} x w o n :
  0 <= w <= 31 -> 0 <= o < 32 -> 0 <= n ->
  Z.testbit (unpack x w o) n = Z.testbit x (n + o) && (n <? w).
Proof.
  intros Hw Ho Hn. unfold unpack, shr32.
  destruct (Z.ltb_spec o 32); [|lia].
  rewrite low_mask_ones by lia.
  now rewrite Z.land_spec, Z.shiftr_spec, Z.testbit_ones_nonneg by lia.
Qed.

(** X3.  [unpack] undoes [pack]: a field of [width <= 31] bits that fits the
    word reads back as the low [width] bits of the value packed. *)
Theorem unpack_pack {T : Target} (value width offset : Z) :
  0 <= width <= 31 -> 0 <= offset < 32 -> width + offset <= 32 ->
  unpack (pack value width offset) width offset = value mod 2 ^ width.
Proof.
  intros Hw Ho Hfit. apply Z.bits_inj'. intros n Hn.
  rewrite unpack_bits, pack_bits by lia.
  replace (n + offset - offset) with n by lia.
  destruct (Z.ltb_spec n width).
  - rewrite Z.mod_pow2_bits_low by lia.
    destruct (Z.leb_spec offset (n + offset)); [|lia].
    destruct (Z.ltb_spec (n + offset) (offset + width)); [|lia].
    cbn. apply andb_true_r.
  - rewrite Z.mod_pow2_bits_high by lia. apply andb_false_r.
Qed.

Lemma unpack_pack_witness :
  unpack (T := gcc_x86) (pack (T := gcc_x86) 1000 7 20) 7 20 = 1000 mod 2 ^ 7.
Proof. apply (unpack_pack (T := gcc_x86) 1000 7 20); lia. Defined.

(** X4.  Two fields packed at disjoint bit ranges and combined with [|] do
    not disturb each other: each unpacks to its own value. *)
Theorem unpack_combined_fields {T : Target} (a wa oa b wb ob : Z) :
  0 <= wa <= 31 -> 0 <= oa < 32 -> wa + oa <= 32 ->
  0 <= wb <= 31 -> 0 <= ob < 32 -> wb + ob <= 32 ->
  oa + wa <= ob \/ ob + wb <= oa ->
  unpack (Z.lor (pack a wa oa) (pack b wb ob)) wa oa = a mod 2 ^ wa
  /\ unpack (Z.lor (pack a wa oa) (pack b wb ob)) wb ob = b mod 2 ^ wb.
Proof.
  intros Hwa Hoa Hfa Hwb Hob Hfb Hdis.
  split; apply Z.bits_inj'; intros n Hn;
    rewrite unpack_bits, Z.lor_spec, !pack_bits by lia.
  - replace (n + oa - oa) with n by lia.
    destruct (Z.ltb_spec n wa).
    + rewrite Z.mod_pow2_bits_low by lia.
      destruct (Z.leb_spec oa (n + oa)); [|lia].
      destruct (Z.ltb_spec (n + oa) (oa + wa)); [|lia].
      destruct (Z.leb_spec ob (n + oa)), (Z.ltb_spec (n + oa) (ob + wb));
        try lia; cbn; now rewrite ?orb_false_r, ?andb_true_r.
    + rewrite Z.mod_pow2_bits_high by lia. apply andb_false_r.
  - replace (n + ob - ob) with n by lia.
    destruct (Z.ltb_spec n wb).
    + rewrite Z.mod_pow2_bits_low by lia.
      destruct (Z.leb_spec ob (n + ob)); [|lia].
      destruct (Z.ltb_spec (n + ob) (ob + wb)); [|lia].
      destruct (Z.leb_spec oa (n + ob)), (Z.ltb_spec (n + ob) (oa + wa));
        try lia; cbn; now rewrite ?andb_true_r.
    + rewrite Z.mod_pow2_bits_high by lia. apply andb_false_r.
Qed.

Lemma unpack_combined_fields_witness :
  unpack (T := gcc_x86)
    (Z.lor (pack (T := gcc_x86) 5 3 0) (pack (T := gcc_x86) 77 8 3)) 3 0
  = 5 mod 2 ^ 3
  /\ unpack (T := gcc_x86)
       (Z.lor (pack (T := gcc_x86) 5 3 0) (pack (T := gcc_x86) 77 8 3)) 8 3
     = 77 mod 2 ^ 8.
Proof.
  apply (unpack_combined_fields (T := gcc_x86) 5 3 0 77 8 3); lia.
Defined.

(** ** [qvec] *)

(** X5.  On [uint32_t] components [qvec_min] and [qvec_max] bracket both
    arguments, and [qvec_max a b - qvec_min a b] does not wrap: it is the
    componentwise absolute difference.  (A plain [a - b] wraps wherever a
    component of [a] is below that of [b].) *)
Theorem qvec_extent_is_absolute_difference (a b : qvec) :
  qvec_ok a -> qvec_ok b ->
  let lo := qvec_min a b in
  let hi := qvec_max a b in
  (qx lo <= qx a <= qx hi /\ qx lo <= qx b <= qx hi)
  /\ (qy lo <= qy a <= qy hi /\ qy lo <= qy b <= qy hi)
  /\ (qz lo <= qz a <= qz hi /\ qz lo <= qz b <= qz hi)
  /\ qvec_sub hi lo
     = {| qx := Z.abs (qx a - qx b); qy := Z.abs (qy a - qy b);
          qz := Z.abs (qz a - qz b) |}.
Proof.
  intros (Hax & Hay & Haz) (Hbx & Hby & Hbz). cbv zeta.
  unfold qvec_sub, qvec_min, qvec_max, umin, umax. cbn.
  destruct (Z.ltb_spec (qx a) (qx b)), (Z.ltb_spec (qx b) (qx a)),
           (Z.ltb_spec (qy a) (qy b)), (Z.ltb_spec (qy b) (qy a)),
           (Z.ltb_spec (qz a) (qz b)), (Z.ltb_spec (qz b) (qz a));
    try lia;
    (repeat split; try lia; rewrite !wrap32_small by lia; f_equal; lia).
Qed.

Lemma qvec_extent_is_absolute_difference_witness :
  qvec_sub (qvec_max {| qx := 1; qy := 9; qz := 4 |}
                     {| qx := 7; qy := 2; qz := 4 |})
           (qvec_min {| qx := 1; qy := 9; qz := 4 |}
                     {| qx := 7; qy := 2; qz := 4 |})
  = {| qx := Z.abs (1 - 7); qy := Z.abs (9 - 2); qz := Z.abs (4 - 4) |}.
Proof.
  apply (qvec_extent_is_absolute_difference
           {| qx := 1; qy := 9; qz := 4 |} {| qx := 7; qy := 2; qz := 4 |});
    unfold qvec_ok; cbn; lia.
Defined.

(** ** The two predicates against each other *)

Lemma newBits_range {T : Target} st a b c : 0 <= newBits st a b c < 2 ^ 32.
Proof. unfold newBits. apply wrap32_range. Qed.

(** X6.  With the default budget [maxBlockBits = ~0] the bit-budget
    predicate is the capacity predicate, and [fitsBlock] holds of every
    cache. *)
Theorem unset_budget_is_capacity_only {T : Target}
    (st : PrimitiveCache) (a b c : Z) :
  maxBlockBits st = wrap32 (-1) ->
  cannotInsertBlock st a b c = cannotInsert st a b c
  /\ fitsBlock st = true.
Proof.
  intros Hmb. split.
  - unfold cannotInsertBlock, cannotInsert.
    destruct (degenerate a b c); [reflexivity|].
    pose proof (newBits_range st a b c) as Hr.
    destruct (Z.ltb_spec (maxBlockBits st) (newBits st a b c)) as [Hlt|_].
    + rewrite Hmb in Hlt. change (wrap32 (-1)) with (2 ^ 32 - 1) in Hlt. lia.
    + rewrite orb_false_r. apply orb_comm.
  - unfold fitsBlock. rewrite Hmb. apply Z.leb_le.
    match goal with |- wrap32 ?x <= _ => pose proof (wrap32_range x) end.
    change (wrap32 (-1)) with (2 ^ 32 - 1). lia.
Qed.

Lemma unset_budget_is_capacity_only_witness :
  cannotInsertBlock (T := gcc_x86) (reset unbudgeted_cache) 0 1 2
  = cannotInsert (reset unbudgeted_cache) 0 1 2
  /\ fitsBlock (reset unbudgeted_cache) = true.
Proof.
  apply (unset_budget_is_capacity_only (T := gcc_x86)
           (reset unbudgeted_cache) 0 1 2).
  reflexivity.
Defined.

(** X7.  Whatever the capacity predicate refuses, the bit-budget predicate
    refuses too, in every cache. *)
Theorem cannotInsert_implies_cannotInsertBlock {T : Target}
    (st : PrimitiveCache) (a b c : Z) :
  cannotInsert st a b c = true -> cannotInsertBlock st a b c = true.
Proof.
  unfold cannotInsert, cannotInsertBlock.
  destruct (degenerate a b c); [discriminate|].
  intros H. apply orb_true_iff in H as [H|H]; rewrite H.
  - now rewrite orb_true_r.
  - reflexivity.
Qed.

Lemma cannotInsert_implies_cannotInsertBlock_witness :
  cannotInsertBlock (T := gcc_x86)
    (configure PrimitiveCache_default 2 126 8 1000) 0 1 2 = true.
Proof.
  apply (cannotInsert_implies_cannotInsertBlock (T := gcc_x86)
           (configure PrimitiveCache_default 2 126 8 1000) 0 1 2).
  reflexivity.
Defined.

(** ** What [cannotInsert] predicts *)

Lemma well_formed_room st a b c :
  well_formed st -> degenerate a b c = false ->
  numVertices st + 3 <= MAX_VERTEX_COUNT_LIMIT ->
  (length (extend (extend (extend (held st) a) b) c) <= 256)%nat.
Proof.
  intros Hwf Hd Hroom.
  pose proof (well_formed_vertices_ok st Hwf) as Hok.
  destruct Hwf as (_ & Hnv & _ & Hnd & _).
  pose proof (extend3_length st a b c Hok Hnd Hd) as Hl.
  pose proof (count_found_range st a b c Hok Hnd).
  unfold MAX_VERTEX_COUNT_LIMIT in *. lia.
Qed.

(** X8.  The capacity predicate is exact.  In a well-formed cache with room
    in the arrays, for a non-degenerate triangle, [insert] returns and
    [cannotInsert] is true exactly when the returned cache exceeds
    [maxVertexSize] or [maxPrimitiveSize]; the vertex count after [insert]
    is [numVertices + 3 - found]. *)
Theorem cannotInsert_is_exact {T : Target}
    (st : PrimitiveCache) (a b c : Z) :
  well_formed st -> degenerate a b c = false ->
  numVertices st + 3 <= MAX_VERTEX_COUNT_LIMIT ->
  numPrims st < MAX_PRIMITIVE_COUNT_LIMIT ->
  exists st', insert st a b c = Some st'
    /\ numVertices st' = numVertices st + 3 - count_found st [a; b; c]
    /\ numPrims st' = numPrims st + 1
    /\ cannotInsert st a b c
       = (maxVertexSize st <? numVertices st')
         || (maxPrimitiveSize st <? numPrims st').
Proof.
  intros Hwf Hd Hv Hp.
  pose proof (well_formed_room st a b c Hwf Hd Hv) as Hroom.
  destruct (insert_spec st a b c Hwf Hd Hroom Hp)
    as (st' & row & Hins & Hh & Hwf' & Hn & _).
  pose proof (well_formed_vertices_ok st Hwf) as Hok.
  pose proof (well_formed_vertices_ok st' Hwf') as Hok'.
  pose proof (held_length st' Hok') as Hl'.
  destruct Hwf as (_ & Hnv & Hnp & Hnd & _).
  pose proof (extend3_length st a b c Hok Hnd Hd) as Hl.
  pose proof (count_found_range st a b c Hok Hnd) as Hf.
  destruct Hok' as [_ Hnv'].
  unfold MAX_VERTEX_COUNT_LIMIT, MAX_PRIMITIVE_COUNT_LIMIT in *.
  assert (numVertices st' = numVertices st + 3 - count_found st [a; b; c])
    as Hnv3 by (rewrite Hh in Hl'; lia).
  exists st'. split; [assumption|]. split; [assumption|].
  split; [assumption|].
  unfold cannotInsert. rewrite Hd, Hn, Hnv3.
  rewrite (wrap32_small (numVertices st + 3)) by lia.
  now rewrite !wrap32_small by lia.
Qed.

Lemma cannotInsert_is_exact_witness :
  exists st', insert (T := gcc_x86) (reset unbudgeted_cache) 0 1 2 = Some st'
    /\ numVertices st'
       = numVertices (reset unbudgeted_cache) + 3
         - count_found (reset unbudgeted_cache) [0; 1; 2]
    /\ numPrims st' = numPrims (reset unbudgeted_cache) + 1
    /\ cannotInsert (reset unbudgeted_cache) 0 1 2
       = (maxVertexSize (reset unbudgeted_cache) <? numVertices st')
         || (maxPrimitiveSize (reset unbudgeted_cache) <? numPrims st').
Proof.
  apply (cannotInsert_is_exact (T := gcc_x86) (reset unbudgeted_cache) 0 1 2).
  - apply reset_well_formed. reflexivity.
  - reflexivity.
  - vm_compute. discriminate.
  - vm_compute. reflexivity.
Defined.

(** ** A triangle whose vertices are all held *)

(** X9.  Inserting a non-degenerate triangle whose three indices are
    already held appends one row that resolves to it and changes nothing
    else: no vertex is added, both bit widths stay. *)
Theorem insert_held_triangle_adds_a_row {T : Target}
    (st : PrimitiveCache) (a b c : Z) :
  well_formed st -> degenerate a b c = false ->
  a ∈ held st -> b ∈ held st -> c ∈ held st ->
  numPrims st < MAX_PRIMITIVE_COUNT_LIMIT ->
  exists st' row, insert st a b c = Some st'
    /\ primitives st' = <[Z.to_nat (numPrims st) := row]> (primitives st)
    /\ resolves st row (a, b, c)
    /\ numPrims st' = numPrims st + 1
    /\ vertices st' = vertices st
    /\ numVertices st' = numVertices st
    /\ numVertexDeltaBits st' = numVertexDeltaBits st
    /\ numVertexAllBits st' = numVertexAllBits st.
Proof.
  intros Hwf Hd Ha Hb Hc Hp.
  pose proof (well_formed_vertices_ok st Hwf) as Hok.
  destruct Hwf as ([Hpl _] & Hnv & Hnp & _).
  unfold MAX_VERTEX_COUNT_LIMIT, MAX_PRIMITIVE_COUNT_LIMIT in *.
  destruct (insert_index_hit st a Hok Ha) as (t0 & E0 & H0 & L0).
  destruct (insert_index_hit st b Hok Hb) as (t1 & E1 & H1 & L1).
  destruct (insert_index_hit st c Hok Hc) as (t2 & E2 & H2 & L2).
  unfold insert. rewrite Hd, E0. cbn [mbind option_bind].
  rewrite E1. cbn [mbind option_bind]. rewrite E2. cbn [mbind option_bind].
  unfold store. destruct (decide _) as [_|Hbad]; [|exfalso; lia].
  cbn [mbind option_bind]. rewrite !wrap8_small by lia.
  eexists _, (t0, t1, t2). split; [reflexivity|]. cbn.
  split; [reflexivity|]. split.
  { repeat split; try lia; now apply held_read. }
  split; [apply wrap32_small; lia|]. repeat split.
Qed.

Lemma insert_held_triangle_adds_a_row_witness :
  exists st' row, insert (T := gcc_x86) used_cache 9 7 4 = Some st'
    /\ primitives st'
       = <[Z.to_nat (numPrims used_cache) := row]> (primitives used_cache)
    /\ resolves used_cache row (9, 7, 4)
    /\ numPrims st' = numPrims used_cache + 1
    /\ vertices st' = vertices used_cache
    /\ numVertices st' = numVertices used_cache
    /\ numVertexDeltaBits st' = numVertexDeltaBits used_cache
    /\ numVertexAllBits st' = numVertexAllBits used_cache.
Proof.
  apply (insert_held_triangle_adds_a_row (T := gcc_x86) used_cache 9 7 4).
  - unfold well_formed, arrays_sized.
    split; [split; vm_compute; reflexivity|].
    split; [vm_compute; split; discriminate|].
    split; [vm_compute; split; discriminate|].
    split; [apply (bool_decide_unpack _); vm_compute; reflexivity|].
    vm_compute; split; discriminate.
  - reflexivity.
  - apply (bool_decide_unpack _). vm_compute. reflexivity.
  - apply (bool_decide_unpack _). vm_compute. reflexivity.
  - apply (bool_decide_unpack _). vm_compute. reflexivity.
  - vm_compute. reflexivity.
Defined.

(** ** Stores past the arrays *)

Lemma insert_index_returns_room {T : Target} st idx r :
  vertices_ok st -> insert_index st idx = Some r ->
  idx ∈ held st \/ numVertices st < MAX_VERTEX_COUNT_LIMIT.
Proof.
  intros Hok Hins. destruct (decide (idx ∈ held st)) as [|Hout]; [now left|].
  right. pose proof Hok as [Hlen Hnv]. unfold insert_index in Hins.
  destruct (find _ _) as [v|] eqn:Hf.
  { exfalso. apply find_vertex_Some in Hf as [Hv Hr].
    apply Hout, elem_of_held; eauto. }
  unfold store in Hins. destruct (decide _) as [Hin|]; [|discriminate].
  unfold MAX_VERTEX_COUNT_LIMIT in *. lia.
Qed.

(** X10.  Without the check, [insert] at the hard limits stores outside an
    array: with 256 vertices held and a first index that is new, or with 256
    rows and all three indices held. *)
Theorem insert_past_the_arrays_faults {T : Target}
    (st : PrimitiveCache) (a b c : Z) :
  well_formed st -> degenerate a b c = false ->
  (numVertices st = MAX_VERTEX_COUNT_LIMIT /\ a ∉ held st)
  \/ (numPrims st = MAX_PRIMITIVE_COUNT_LIMIT
      /\ a ∈ held st /\ b ∈ held st /\ c ∈ held st) ->
  insert st a b c = None.
Proof.
  intros Hwf Hd Hfull.
  pose proof (well_formed_vertices_ok st Hwf) as Hok.
  destruct Hwf as ([Hpl _] & Hnv & Hnp & _).
  unfold MAX_VERTEX_COUNT_LIMIT, MAX_PRIMITIVE_COUNT_LIMIT in *.
  unfold insert. rewrite Hd.
  destruct Hfull as [[Hv Ha]|(Hp & Ha & Hb & Hc)].
  - destruct (insert_index st a) as [r|] eqn:E; [|reflexivity].
    exfalso. destruct (insert_index_returns_room st a r Hok E) as [?|Hlt].
    + contradiction.
    + unfold MAX_VERTEX_COUNT_LIMIT in Hlt. lia.
  - destruct (insert_index_hit st a Hok Ha) as (t0 & E0 & _).
    destruct (insert_index_hit st b Hok Hb) as (t1 & E1 & _).
    destruct (insert_index_hit st c Hok Hc) as (t2 & E2 & _).
    rewrite E0. cbn [mbind option_bind]. rewrite E1. cbn [mbind option_bind].
    rewrite E2. cbn [mbind option_bind].
    unfold store. destruct (decide _) as [Hbad|]; [exfalso; lia|reflexivity].
Qed.

Lemma insert_past_the_arrays_faults_witness :
  insert (T := gcc_x86) full_cache 0 1 2 = None.
Proof.
  apply (insert_past_the_arrays_faults (T := gcc_x86) full_cache 0 1 2).
  - unfold well_formed, arrays_sized.
    split; [split; vm_compute; reflexivity|].
    split; [vm_compute; split; discriminate|].
    split; [vm_compute; split; discriminate|].
    split; [apply (bool_decide_unpack _); vm_compute; reflexivity|].
    vm_compute; split; discriminate.
  - reflexivity.
  - right. split; [vm_compute; reflexivity|].
    repeat split; apply (bool_decide_unpack _); vm_compute; reflexivity.
Defined.

(** ** Exhaustion lasts until [reset] *)

(** One checked step: what it keeps and how the table grows. *)
Lemma checked_step {T : Target} k st a b c st' :
  k <> NoCheck -> well_formed st ->
  maxVertexSize st <= MAX_VERTEX_COUNT_LIMIT ->
  maxPrimitiveSize st <= MAX_PRIMITIVE_COUNT_LIMIT ->
  refuses k st (a, b, c) = false -> insert st a b c = Some st' ->
  well_formed st' /\ same_config st st'
  /\ numPrims st <= numPrims st'
  /\ forall x, x ∈ held st -> x ∈ held st'.
Proof.
  intros Hk Hwf Hmv Hmp Href Hins.
  destruct (degenerate a b c) eqn:Hd.
  { unfold insert in Hins. rewrite Hd in Hins. injection Hins as <-.
    split; [assumption|]. split; [repeat split|]. split; [lia|auto]. }
  destruct (checked_room k st a b c) as [Hv Hp]; try assumption.
  unfold MAX_VERTEX_COUNT_LIMIT, MAX_PRIMITIVE_COUNT_LIMIT in *.
  destruct (insert_spec st a b c) as
    (st'' & row & Hins' & Hh & Hwf' & Hn & _ & _ & Hcfg & _);
    [assumption|assumption|lia|unfold MAX_PRIMITIVE_COUNT_LIMIT; lia|].
  rewrite Hins in Hins'. injection Hins' as <-.
  split; [assumption|]. split; [assumption|]. split; [lia|].
  intros x Hx. rewrite Hh, !elem_of_extend. auto.
Qed.

Lemma extend3_length_mono l l' a b c :
  NoDup l -> (forall x, x ∈ l -> x ∈ l') ->
  (length (extend (extend (extend l a) b) c)
   <= length (extend (extend (extend l' a) b) c))%nat.
Proof.
  intros Hnd Hsub. apply submseteq_length, NoDup_submseteq.
  - now repeat apply extend_NoDup.
  - intros x. rewrite !elem_of_extend. intuition auto.
Qed.

(** X11.  Exhaustion is monotone: once [cannotInsert] is true of a
    non-degenerate triangle it stays true after any further checked
    [insert]; only [reset] makes room again. *)
Theorem cannotInsert_stays_true {T : Target}
    (k : Check) (st : PrimitiveCache) (u : triangle) (st' : PrimitiveCache)
    (a b c : Z) :
  k <> NoCheck -> well_formed st ->
  maxVertexSize st <= MAX_VERTEX_COUNT_LIMIT ->
  maxPrimitiveSize st <= MAX_PRIMITIVE_COUNT_LIMIT ->
  refuses k st u = false -> insert st u.1.1 u.1.2 u.2 = Some st' ->
  cannotInsert st a b c = true -> cannotInsert st' a b c = true.
Proof.
  intros Hk Hwf Hmv Hmp Href Hins Hfull. destruct u as [[ua ub] uc].
  cbn [fst snd] in Hins.
  destruct (checked_step k st ua ub uc st') as (Hwf' & Hcfg & Hnp' & Hsub);
    try assumption.
  destruct Hcfg as (Hc1 & Hc2 & _).
  unfold cannotInsert in *.
  destruct (degenerate a b c) eqn:Hd; [discriminate|].
  pose proof (well_formed_vertices_ok st Hwf) as Hok.
  pose proof (well_formed_vertices_ok st' Hwf') as Hok'.
  pose proof Hwf as (_ & Hnv & Hnp & Hnd & _).
  pose proof Hwf' as (_ & Hnv2 & Hnp2 & Hnd' & _).
  pose proof (extend3_length st a b c Hok Hnd Hd) as Hl.
  pose proof (extend3_length st' a b c Hok' Hnd' Hd) as Hl'.
  pose proof (count_found_range st a b c Hok Hnd) as Hf.
  pose proof (count_found_range st' a b c Hok' Hnd') as Hf'.
  pose proof (extend3_length_mono (held st) (held st') a b c Hnd Hsub) as Hm.
  unfold MAX_VERTEX_COUNT_LIMIT, MAX_PRIMITIVE_COUNT_LIMIT in *.
  rewrite (wrap32_small (numVertices st + 3)) in Hfull by lia.
  rewrite !wrap32_small in Hfull by lia.
  rewrite (wrap32_small (numVertices st' + 3)) by lia.
  rewrite Hc1, Hc2.
  apply orb_true_iff in Hfull as [H|H]; apply Z.ltb_lt in H.
  - rewrite (wrap32_small (_ - _)) by lia.
    apply orb_true_iff. left. apply Z.ltb_lt. lia.
  - apply orb_true_iff. right.
    rewrite wrap32_small by lia. apply Z.ltb_lt. lia.
Qed.

Lemma cannotInsert_stays_true_witness :
  exists st',
    insert (T := gcc_x86) tight_cache 0 1 3 = Some st'
    /\ cannotInsert st' 7 8 9 = true.
Proof.
  eexists. split; [vm_compute; reflexivity|].
  eapply (cannotInsert_stays_true (T := gcc_x86) CapacityOnly tight_cache
            (0, 1, 3) _ 7 8 9).
  - discriminate.
  - unfold well_formed, arrays_sized.
    split; [split; vm_compute; reflexivity|].
    split; [vm_compute; split; discriminate|].
    split; [vm_compute; split; discriminate|].
    split; [apply (bool_decide_unpack _); vm_compute; reflexivity|].
    vm_compute; split; discriminate.
  - vm_compute. discriminate.
  - vm_compute. discriminate.
  - vm_compute. reflexivity.
  - vm_compute. reflexivity.
  - vm_compute. reflexivity.
Defined.

(** ** The bit widths on the [_MSC_VER] branch *)

Lemma bit_scan_reverse_zero n : bit_scan_reverse n 0 = 0.
Proof.
  induction n as [|k IH]; [reflexivity|].
  cbn [bit_scan_reverse]. now rewrite Z.bits_0.
Qed.

(** [findMSB(v) + 1] bits hold [v]. *)
Lemma msvc_width_covers {T : Target} v :
  compiler = MSVC -> 0 <= v < 2 ^ 32 ->
  1 <= findMSB v + 1 <= 32 /\ v < 2 ^ (findMSB v + 1).
Proof.
  intros Hc Hv. destruct (Z.eq_dec v 0) as [->|Hnz].
  - unfold findMSB. rewrite Hc, bit_scan_reverse_zero. cbn. lia.
  - rewrite findMSB_msvc by (assumption || lia).
    pose proof (Z.log2_spec v ltac:(lia)) as Hs.
    assert (Z.log2 v < 32) by (apply Z.log2_lt_pow2; lia).
    pose proof (Z.log2_nonneg v). rewrite <- Z.add_1_r in Hs. lia.
Qed.

Lemma lor_1_ge x : x <= Z.lor x 1.
Proof.
  pose proof (Z.add_lor_land x 1) as H.
  change 1 with (Z.ones 1) in H at 2. rewrite Z.land_ones in H by lia.
  pose proof (Z.mod_pos_bound x (2 ^ 1) ltac:(lia)).
  change (2 ^ 1) with 2 in *. lia.
Qed.

Lemma lxor_range x y :
  0 <= x < 2 ^ 32 -> 0 <= y < 2 ^ 32 -> 0 <= Z.lxor x y < 2 ^ 32.
Proof.
  intros Hx Hy. split; [apply Z.lxor_nonneg; lia|].
  pose proof (lxor_guard_range x y Hx Hy).
  pose proof (lor_1_ge (Z.lxor x y)). lia.
Qed.

Lemma msvc_guarded_width_covers {T : Target} x :
  compiler = MSVC -> 0 <= x < 2 ^ 32 ->
  1 <= findMSB (Z.lor x 1) + 1 <= 32 /\ x < 2 ^ (findMSB (Z.lor x 1) + 1).
Proof.
  intros Hc Hx.
  assert (0 < Z.lor x 1 < 2 ^ 32) as Hr.
  { rewrite <- (Z.lxor_0_r x). apply lxor_guard_range; lia. }
  destruct (msvc_width_covers (Z.lor x 1) Hc ltac:(lia)) as [Hw Hlt].
  split; [assumption|]. pose proof (lor_1_ge x). lia.
Qed.

Lemma widths_grow st st' :
  vertices_ok st ->
  held st' = held st -> vertices st' = vertices st ->
  numVertexDeltaBits st' = numVertexDeltaBits st ->
  numVertexAllBits st' = numVertexAllBits st ->
  widths_suffice st -> widths_suffice st'.
Proof.
  intros _ Hh Hv Hd Ha H v Hin. rewrite Hh in Hin.
  rewrite Hv, Hd, Ha. now apply H.
Qed.

(** One round of the outer loop keeps both widths sufficient. *)
Lemma insert_index_widths {T : Target} st idx st' t :
  compiler = MSVC ->
  vertices_ok st -> 0 <= numVertexDeltaBits st -> 0 <= numVertexAllBits st ->
  widths_suffice st -> 0 <= idx < 2 ^ 32 ->
  insert_index st idx = Some (st', t) ->
  vertices_ok st' /\ 0 <= numVertexDeltaBits st'
  /\ 0 <= numVertexAllBits st' /\ widths_suffice st'
  /\ primitives st' = primitives st /\ numPrims st' = numPrims st.
Proof.
  intros Hc Hok Hd0 Ha0 Hw Hidx Hins.
  destruct (decide (idx ∈ held st)) as [Hin|Hout].
  { destruct (insert_index_hit st idx Hok Hin) as (v & E & _).
    rewrite E in Hins. injection Hins as <- <-. auto 10. }
  destruct (insert_index_returns_room st idx _ Hok Hins) as [?|Hroom];
    [contradiction|].
  destruct (insert_index_miss st idx Hok Hout Hroom)
    as (st2 & E & Hvs & Hn & Hp & Hnp & _ & Hab & Hdb).
  rewrite E in Hins. injection Hins as <- <-.
  pose proof (held_after_store st st2 idx Hok Hroom Hvs Hn) as Hheld.
  pose proof Hok as [Hlen Hnv].
  pose proof (held_length st Hok) as Hhl.
  unfold MAX_VERTEX_COUNT_LIMIT in *.
  destruct (msvc_width_covers idx Hc Hidx) as [Hiw Hicov].
  rewrite umax_max in Hab. rewrite (wrap32_small (findMSB idx + 1)) in Hab
    by lia.
  assert (vertices_ok st2) as Hok2.
  { split; [rewrite Hvs, length_insert; assumption|].
    unfold MAX_VERTEX_COUNT_LIMIT. lia. }
  assert (forall p q, 0 <= p <= q -> 2 ^ p <= 2 ^ q) as Hpow
    by (intros; apply Z.pow_le_mono_r; lia).
  destruct (Z.eqb_spec (numVertices st) 0) as [E0|E0].
  - (* the first vertex of the cluster *)
    assert (held st = []) as Hnil.
    { apply length_zero_iff_nil. rewrite Hhl, E0. reflexivity. }
    split; [assumption|]. split; [lia|]. split; [lia|].
    split; [|auto].
    intros v Hv. rewrite Hheld, Hnil in Hv. cbn in Hv.
    apply list_elem_of_singleton in Hv as ->.
    assert (read (vertices st2) 0 = idx) as ->.
    { apply read_lookup. rewrite Hvs, E0. cbn [Z.to_nat].
      apply list_lookup_insert_eq. lia. }
    rewrite Z.lxor_nilpotent, Hdb.
    split; [assumption|]. split; [apply Z.pow_pos_nonneg; lia|].
    eapply Z.lt_le_trans; [exact Hicov|]. apply Hpow. lia.
  - assert (read (vertices st2) 0 = read (vertices st) 0) as Hfirst.
    { unfold read. rewrite Hvs, list_lookup_insert_ne by lia. reflexivity. }
    assert (read (vertices st) 0 ∈ held st) as Hfin.
    { apply elem_of_held; [assumption|]. exists 0. split; [lia|reflexivity]. }
    destruct (Hw _ Hfin) as (Hfr & _ & _).
    assert (0 <= Z.lxor idx (read (vertices st) 0) < 2 ^ 32) as Hxr
      by (apply lxor_range; assumption).
    destruct (msvc_guarded_width_covers _ Hc Hxr) as [Hgw Hgcov].
    rewrite umax_max, wrap32_small in Hdb by lia.
    split; [assumption|]. split; [lia|]. split; [lia|].
    split; [|auto].
    intros v Hv. rewrite Hheld in Hv. rewrite Hfirst.
    apply elem_of_app in Hv as [Hv|Hv].
    + destruct (Hw v Hv) as (Hr & Hdl & Hal).
      split; [assumption|]. split.
      * eapply Z.lt_le_trans; [exact Hdl|]. apply Hpow. lia.
      * eapply Z.lt_le_trans; [exact Hal|]. apply Hpow. lia.
    + apply list_elem_of_singleton in Hv as ->.
      split; [assumption|]. split.
      * eapply Z.lt_le_trans; [exact Hgcov|]. apply Hpow. lia.
      * eapply Z.lt_le_trans; [exact Hicov|]. apply Hpow. lia.
Qed.

Lemma insert_widths {T : Target} st a b c st' :
  compiler = MSVC ->
  vertices_ok st -> 0 <= numVertexDeltaBits st -> 0 <= numVertexAllBits st ->
  widths_suffice st -> indices_ok (a, b, c) ->
  insert st a b c = Some st' ->
  vertices_ok st' /\ 0 <= numVertexDeltaBits st'
  /\ 0 <= numVertexAllBits st' /\ widths_suffice st'.
Proof.
  intros Hc Hok Hd0 Ha0 Hw (Ha & Hb & Hcc) Hins. unfold insert in Hins.
  destruct (degenerate a b c); [injection Hins as <-; auto|].
  destruct (insert_index st a) as [[st1 t0]|] eqn:E1; [|discriminate].
  cbn [mbind option_bind] in Hins.
  destruct (insert_index st1 b) as [[st2 t1]|] eqn:E2; [|discriminate].
  cbn [mbind option_bind] in Hins.
  destruct (insert_index st2 c) as [[st3 t2]|] eqn:E3; [|discriminate].
  cbn [mbind option_bind] in Hins.
  destruct (store _ _ _) as [prims|]; [|discriminate].
  cbn [mbind option_bind] in Hins. injection Hins as <-.
  destruct (insert_index_widths st a st1 t0) as (O1 & D1 & A1 & W1 & _);
    try assumption.
  destruct (insert_index_widths st1 b st2 t1) as (O2 & D2 & A2 & W2 & _);
    try assumption.
  destruct (insert_index_widths st2 c st3 t2) as (O3 & D3 & A3 & W3 & _);
    try assumption.
  split; [exact O3|]. split; [exact D3|]. split; [exact A3|]. exact W3.
Qed.

(** X12.  On the [_MSC_VER] branch both widths suffice in every cache of a
    run from [reset], whatever the check: each held vertex is below
    [2^numVertexAllBits] and its XOR-difference from [vertices[0]] is below
    [2^numVertexDeltaBits]. *)
Theorem widths_cover_held_vertices {T : Target}
    (k : Check) (st0 : PrimitiveCache) (ts : list triangle)
    (st : PrimitiveCache) :
  compiler = MSVC -> Forall indices_ok ts ->
  run k (reset st0) ts st ->
  forall v, v ∈ held st ->
    Z.lxor v (read (vertices st) 0) < 2 ^ numVertexDeltaBits st
    /\ v < 2 ^ numVertexAllBits st.
Proof.
  intros Hc Hts Hrun.
  assert (vertices_ok st /\ 0 <= numVertexDeltaBits st
          /\ 0 <= numVertexAllBits st /\ widths_suffice st) as (_ & _ & _ & H).
  { induction Hrun as [|ts st a b c st' Hrun IH Href Hins].
    - split.
      { split; cbn; [apply length_replicate|].
        unfold MAX_VERTEX_COUNT_LIMIT. lia. }
      cbn. split; [lia|]. split; [lia|].
      intros v Hv. unfold held in Hv. cbn in Hv. inversion Hv.
    - apply Forall_app in Hts as [Hts Ht].
      rewrite Forall_singleton in Ht.
      destruct (IH Hts) as (Hok & Hd & Ha & Hw).
      exact (insert_widths st a b c st' Hc Hok Hd Ha Hw Ht Hins). }
  intros v Hv. destruct (H v Hv) as (_ & ? & ?). auto.
Qed.

Lemma widths_cover_held_vertices_witness :
  exists st,
    feed (T := msvc_x86) CapacityOnly (reset unbudgeted_cache)
      [(7, 3, 9); (9, 3, 1000)] = Some st
    /\ Z.lxor 1000 (read (vertices st) 0) < 2 ^ numVertexDeltaBits st
    /\ 1000 < 2 ^ numVertexAllBits st.
Proof.
  eexists. split; [vm_compute; reflexivity|].
  eapply (widths_cover_held_vertices (T := msvc_x86) CapacityOnly
            unbudgeted_cache [(7, 3, 9); (9, 3, 1000)]).
  - reflexivity.
  - repeat constructor; cbn; lia.
  - apply feed_run. vm_compute. reflexivity.
  - apply (bool_decide_unpack _). vm_compute. reflexivity.
Defined.

(** On the other branch the widths do not cover: after (0, 2^20, 2^21) the
    delta width is 12 and the all-bits width 33. *)
Example widths_on_the_clz_branch :
  (fun st => (numVertexDeltaBits st, numVertexAllBits st))
    <$> feed (T := gcc_x86) CapacityOnly (reset unbudgeted_cache)
          [(0, 2 ^ 20, 2 ^ 21)]
  = Some (12, 33).
Proof. vm_compute. reflexivity. Qed.

(** ** The budget along a run *)

(** A checked [insert] of a non-degenerate triangle leaves a cache that fits
    the block. *)
Lemma checked_insert_fits {T : Target} st a b c st' :
  well_formed st ->
  maxVertexSize st <= MAX_VERTEX_COUNT_LIMIT ->
  maxPrimitiveSize st <= MAX_PRIMITIVE_COUNT_LIMIT ->
  0 <= primitiveBits st ->
  3 * 255 * primitiveBits st + 255 * 32 < 2 ^ 32 ->
  degenerate a b c = false ->
  cannotInsertBlock st a b c = false ->
  insert st a b c = Some st' ->
  fitsBlock st' = true.
Proof.
  intros Hwf Hmv Hmp Hpb0 Hpb Hd Hcheck Hins0.
  pose proof (well_formed_vertices_ok st Hwf) as Hok.
  destruct (checked_room BitBudget st a b c) as [Hroomv Hroomp];
    [discriminate|assumption|lia|lia|exact Hcheck|assumption|].
  unfold MAX_VERTEX_COUNT_LIMIT, MAX_PRIMITIVE_COUNT_LIMIT in *.
  destruct (insert_spec st a b c) as
    (st2 & row & Hins & Hh & Hwf' & Hn & _ & _ & Hcfg' & Hdelta);
    [assumption|assumption|lia|unfold MAX_PRIMITIVE_COUNT_LIMIT; lia|].
  rewrite Hins0 in Hins. injection Hins as <-.
  destruct Hcfg' as (_ & _ & Hpb' & Hmb').
  pose proof (well_formed_vertices_ok st' Hwf') as Hok'.
  pose proof (held_length st' Hok') as Hlen'.
  pose proof (extend3_length st a b c Hok) as Hl3.
  destruct Hwf as (_ & Hnv & Hnp & Hnodup & Hdb).
  destruct Hwf' as (_ & Hnv' & Hnp' & _ & Hdb').
  specialize (Hl3 Hnodup Hd).
  pose proof (count_found_range st a b c Hok Hnodup) as Hf.
  pose proof (extend_nonempty (extend (extend (held st) a) b) c) as Hne.
  pose proof (cmpBits_max st a b c) as [_ Hcmp].
  unfold MAX_VERTEX_COUNT_LIMIT, MAX_PRIMITIVE_COUNT_LIMIT in *.
  unfold cannotInsertBlock in Hcheck. rewrite Hd in Hcheck.
  apply orb_false_iff in Hcheck as [_ Hbits]. apply Z.ltb_ge in Hbits.
  unfold newBits in Hbits. rewrite umax_max in Hbits.
  set (found := count_found st [a; b; c]) in *.
  set (delta := Z.max (cmpBits st a b c) (numVertexDeltaBits st)) in *.
  set (pb := primitiveBits st) in *.
  assert (numVertices st' = numVertices st + 3 - found) as Hnv3.
  { rewrite Hh in Hlen'. lia. }
  assert (0 <= (numVertices st' - 1) * numVertexDeltaBits st'
          <= (numVertices st' - 1) * delta) as Hvb.
  { split; [apply Z.mul_nonneg_nonneg; lia|].
    apply Z.mul_le_mono_nonneg_l; lia. }
  assert ((numVertices st' - 1) * delta <= 255 * 32) as Hvmax.
  { transitivity (255 * delta); [apply Z.mul_le_mono_nonneg_r; lia|lia]. }
  assert (0 <= numPrims st * 3 * pb <= 3 * 255 * pb) as Hpmax.
  { split; [apply Z.mul_nonneg_nonneg; lia|].
    replace (3 * 255 * pb) with (255 * 3 * pb) by lia.
    apply Z.mul_le_mono_nonneg_r; lia. }
  rewrite (wrap32_small (numVertices st + 3)) in Hbits by lia.
  rewrite (wrap32_small (numVertices st + 3 - found)) in Hbits by lia.
  rewrite (wrap32_small (numPrims st + 1)) in Hbits by lia.
  rewrite <- Hnv3 in Hbits.
  replace (numPrims st + 1 - 1) with (numPrims st) in Hbits by lia.
  rewrite (wrap32_small (numVertices st' - 1)) in Hbits by lia.
  rewrite (wrap32_small (numPrims st)) in Hbits by lia.
  rewrite (wrap32_small (numPrims st * 3)) in Hbits by lia.
  rewrite (wrap32_small ((numVertices st' - 1) * delta)) in Hbits by lia.
  rewrite (wrap32_small (numPrims st * 3 * pb)) in Hbits by lia.
  rewrite wrap32_small in Hbits by lia.
  unfold fitsBlock. rewrite Hn, Hpb', Hmb'. fold pb.
  replace (numPrims st + 1 - 1) with (numPrims st) by lia.
  rewrite (wrap32_small (numVertices st' - 1)) by lia.
  rewrite (wrap32_small (numPrims st)) by lia.
  rewrite (wrap32_small (numPrims st * 3)) by lia.
  rewrite (wrap32_small ((numVertices st' - 1) * numVertexDeltaBits st'))
    by lia.
  rewrite (wrap32_small (numPrims st * 3 * pb)) by lia.
  rewrite wrap32_small by lia.
  apply Z.leb_le. lia.
Qed.

(** X13.  In bit-budgeted mode the budget is an invariant of the run: every
    cache reached from [reset] with [cannotInsertBlock] as the check that
    holds at least one triangle satisfies [fitsBlock]. *)
Theorem budget_kept_along_run {T : Target}
    (st0 : PrimitiveCache) (ts : list triangle) (st : PrimitiveCache) :
  length (primitives st0) = Z.to_nat MAX_PRIMITIVE_COUNT_LIMIT ->
  0 <= maxVertexSize st0 <= MAX_VERTEX_COUNT_LIMIT ->
  0 <= maxPrimitiveSize st0 <= MAX_PRIMITIVE_COUNT_LIMIT ->
  0 <= primitiveBits st0 ->
  3 * 255 * primitiveBits st0 + 255 * 32 < 2 ^ 32 ->
  run BitBudget (reset st0) ts st ->
  1 <= numPrims st -> fitsBlock st = true.
Proof.
  intros Hlen Hmv Hmp Hpb0 Hpb Hrun.
  induction Hrun as [|ts st a b c st' Hrun IH Href Hins].
  - cbn. lia.
  - destruct (degenerate a b c) eqn:Hd.
    { unfold insert in Hins. rewrite Hd in Hins. injection Hins as <-.
      exact IH. }
    intros _.
    destruct (run_invariant BitBudget (reset st0) ts st)
      as (Hwf & (Hc1 & Hc2 & Hc3 & Hc4) & _ & _);
      try assumption; try reflexivity.
    { discriminate. }
    { now apply reset_well_formed. }
    cbn in Hc1, Hc2, Hc3, Hc4.
    eapply (checked_insert_fits st a b c st'); try eassumption; lia.
Qed.

Lemma budget_kept_along_run_witness :
  exists st,
    feed (T := gcc_x86) BitBudget (reset budgeted_cache)
      [(0, 1, 2); (2, 1, 3)] = Some st
    /\ fitsBlock st = true.
Proof.
  eexists. split; [vm_compute; reflexivity|].
  eapply (budget_kept_along_run (T := gcc_x86) budgeted_cache
            [(0, 1, 2); (2, 1, 3)]).
  - reflexivity.
  - vm_compute. split; discriminate.
  - vm_compute. split; discriminate.
  - vm_compute. discriminate.
  - vm_compute. reflexivity.
  - apply feed_run. vm_compute. reflexivity.
  - vm_compute. discriminate.
Defined.

(** ** [findMSB] on each branch *)

(** X14.  For a non-zero 32-bit value [findMSB] is the position of the
    most-significant set bit on the [_MSC_VER] branch and 31 minus that
    position on the other branch. *)
Theorem findMSB_on_each_branch {T : Target} (value : Z) :
  0 < value < 2 ^ 32 ->
  findMSB value
  = match compiler with
    | MSVC => Z.log2 value
    | GNUC => 31 - Z.log2 value
    end.
Proof.
  intros Hv. destruct compiler eqn:Hc.
  - now apply findMSB_msvc.
  - now apply findMSB_gnuc.
Qed.

Lemma findMSB_on_each_branch_witness :
  findMSB (T := gcc_x86) 1000 = 31 - Z.log2 1000.
Proof. apply (findMSB_on_each_branch (T := gcc_x86) 1000). lia. Defined.

(** ** Merging statistics *)

Lemma wrap64_add_comm x y : wrap64 (x + y) = wrap64 (y + x).
Proof. now rewrite Z.add_comm. Qed.

Lemma wrap64_add_assoc x y z :
  wrap64 (wrap64 (x + y) + z) = wrap64 (x + wrap64 (y + z)).
Proof.
  unfold wrap64.
  rewrite Zplus_mod_idemp_l, Zplus_mod_idemp_r. now rewrite Z.add_assoc.
Qed.

(** X15.  On the integer counters that [append] merges, merging is
    commutative and associative: partitions can be combined in any order
    and grouping.  ([posBitTotal], which [append] skips, keeps the value of
    the receiver and so depends on the order.) *)
Theorem append_counters_commute_and_associate (a b c : Stats) :
  merged_counters (append a b) = merged_counters (append b a)
  /\ merged_counters (append (append a b) c)
     = merged_counters (append a (append b c))
  /\ posBitTotal (append a b) = posBitTotal a.
Proof.
  unfold merged_counters, append; cbn. split; [|split; [|reflexivity]].
  - repeat (f_equal; try apply wrap64_add_comm).
  - repeat (f_equal; try apply wrap64_add_assoc).
Qed.

(** ** The divisions of [fprint] *)

(** X16.  The guard of [fprint] covers [appended] and [meshletsTotal] only.
    Past it, [primIndices / double(primTotal * 3)] and
    [vertexIndices / double(vertexTotal)] are evaluated whatever the
    totals: with [primTotal = 0] or [vertexTotal = 0] the divisor is 0.0. *)
Theorem fprint_divides_by_unguarded_totals (s : Stats) :
  appended s <> 0 -> meshletsTotal s <> 0 ->
  In (Divide (double_of_size_t (primIndices s))
             (double_of_size_t (wrap64 (primTotal s * 3)))) (fprint s).1
  /\ In (Divide (double_of_size_t (vertexIndices s))
                (double_of_size_t (vertexTotal s))) (fprint s).1
  /\ double_of_size_t (wrap64 (0 * 3)) = 0%float
  /\ double_of_size_t 0 = 0%float.
Proof.
  intros Ha Hm. unfold fprint.
  destruct (Z.eqb_spec (appended s) 0); [contradiction|].
  destruct (Z.eqb_spec (meshletsTotal s) 0); [contradiction|].
  cbn. repeat split; auto 10.
Qed.

Lemma fprint_divides_by_unguarded_totals_witness :
  In (Divide (double_of_size_t 0) (double_of_size_t (wrap64 (0 * 3))))
     (fprint reported_stats).1.
Proof.
  apply (fprint_divides_by_unguarded_totals reported_stats);
    vm_compute; discriminate.
Defined.

(** ** The codec on an array in use *)

Lemma field_bit_outside value width m :
  0 <= value < 2 ^ width -> 0 <= width -> m < 0 \/ width <= m ->
  Z.testbit value m = false.
Proof.
  intros Hv Hw [Hm|Hm]; [now apply Z.testbit_neg_r|].
  rewrite <- (Z.mod_small value (2 ^ width)) by assumption.
  apply Z.mod_pow2_bits_high. lia.
Qed.

Lemma default_Some {A} (d x : A) : default d (Some x) = x.
Proof. reflexivity. Qed.

Lemma bit_at_split words k p :
  0 <= k -> 0 <= p < 32 ->
  bit_at words (32 * k + p)
  = Z.testbit (default 0 (words !! Z.to_nat k)) p.
Proof.
  intros Hk Hp. unfold bit_at.
  replace ((32 * k + p) / 32) with k.
  - replace ((32 * k + p) mod 32) with p; [reflexivity|].
    apply Z.mod_unique with k; lia.
  - apply Z.div_unique with p; lia.
Qed.

Lemma lor_word_range a b :
  0 <= a < 2 ^ 32 -> 0 <= b < 2 ^ 32 -> 0 <= Z.lor a b < 2 ^ 32.
Proof.
  intros Ha Hb. split; [apply Z.lor_nonneg; lia|].
  destruct (Z.eq_dec (Z.lor a b) 0) as [->|Hnz]; [lia|].
  assert (0 <= Z.lor a b) by (apply Z.lor_nonneg; lia).
  apply Z.log2_lt_cancel. change (Z.log2 (2 ^ 32)) with 32.
  rewrite Z.log2_lor by lia.
  assert (forall v, 0 <= v < 2 ^ 32 -> Z.log2 v < 32) as Hl.
  { intros v Hv. destruct (Z.eq_dec v 0) as [->|]; [reflexivity|].
    apply Z.log2_lt_pow2; lia. }
  apply Z.max_lub_lt; apply Hl; assumption.
Qed.

Lemma words_ok_lookup words (k : nat) :
  words_ok words -> 0 <= default 0 (words !! k) < 2 ^ 32.
Proof.
  intros H. destruct (words !! k) as [w|] eqn:E; cbn; [|lia].
  eapply (proj1 (Forall_lookup _ _) H); eassumption.
Qed.

Lemma words_ok_insert words (k : nat) w :
  words_ok words -> 0 <= w < 2 ^ 32 -> words_ok (<[k := w]> words).
Proof. intros H Hw. now apply Forall_insert. Qed.

(** The effect of [setBitField] on an array in use, bit by bit: the value
    is ORed in at [offset], every other bit is kept. *)
Lemma setBitField_bits {T : Target} arraySize words width offset value :
  1 <= width <= 32 -> 0 <= value < 2 ^ width -> 0 <= offset ->
  Z.of_nat (length words) = arraySize -> arraySize < 2 ^ 32 ->
  offset / 32 < arraySize -> words_ok words ->
  (width = 32 -> offset mod 32 = 0 -> shr_over value 32 = 0) ->
  exists words',
    setBitField arraySize words width offset value = Some words'
    /\ length words' = length words
    /\ words_ok words'
    /\ forall n, 0 <= n ->
         bit_at words' n
         = bit_at words n
           || ((n <? 32 * arraySize) && Z.testbit value (n - offset)).
Proof.
  intros Hw Hv Ho Hlen Ha Hidx Hok H32.
  pose proof (Z.mod_pos_bound offset 32 ltac:(lia)) as Hs.
  pose proof (Z.div_pos offset 32 Ho ltac:(lia)) as Hi.
  pose proof (Z.div_mod offset 32 ltac:(lia)) as Hdm.
  set (idx := offset / 32) in *. set (s := offset mod 32) in *.
  assert (2 ^ width <= 2 ^ 32) as Hpw by (apply Z.pow_le_mono_r; lia).
  destruct (lookup_lt_is_Some_2 words (Z.to_nat idx)) as [w0 Hw0]; [lia|].
  pose proof (words_ok_lookup words (Z.to_nat idx) Hok) as Hr0.
  rewrite Hw0 in Hr0. cbn in Hr0.
  unfold setBitField. fold idx s.
  destruct (Z.ltb_spec idx arraySize) as [_|]; [|lia]. cbn [negb].
  rewrite (wrap32_small (s + width)) by lia.
  rewrite (wrap32_small (32 - s)) by lia.
  rewrite (wrap32_small (idx + 1)) by lia.
  rewrite (or_word_lookup words idx _ w0 Hw0). cbn [mbind option_bind].
  set (shiftHi := if s + width <=? 32 then width else 32 - s).
  set (retLo := shl32 value s). set (retHi := shr32 value shiftHi).
  assert (retLo = wrap32 (Z.shiftl value s)) as HretLo.
  { subst retLo. unfold shl32. destruct (Z.ltb_spec s 32); [reflexivity|lia]. }
  assert (0 <= retLo < 2 ^ 32) as HrLo by (rewrite HretLo; apply wrap32_range).
  (* bits of the low part *)
  assert (forall p, 0 <= p < 32 ->
            Z.testbit retLo p = Z.testbit value (p - s)) as HbLo.
  { intros p Hp. rewrite HretLo. unfold wrap32.
    rewrite Z.mod_pow2_bits_low, Z.shiftl_spec by lia. reflexivity. }
  (* bits of the high part *)
  assert (0 <= retHi < 2 ^ 32
          /\ forall p, 0 <= p < 32 ->
               Z.testbit retHi p = Z.testbit value (p + 32 - s))
    as [HrHi HbHi].
  { subst retHi shiftHi. unfold shr32.
    destruct (Z.leb_spec (s + width) 32) as [Honly|Hstr].
    - destruct (Z.ltb_spec width 32) as [Hlt|Hge].
      + rewrite Z.shiftr_div_pow2 by lia.
        rewrite Z.div_small by lia. split; [lia|].
        intros p Hp. rewrite Z.bits_0. symmetry.
        apply (field_bit_outside value width); [lia|lia|right; lia].
      + assert (width = 32) as E by lia. assert (s = 0) as Es by lia.
        rewrite E in *. rewrite (H32 eq_refl Es). split; [lia|].
        intros p Hp. rewrite Z.bits_0. symmetry.
        apply (field_bit_outside value 32); [lia|lia|right; lia].
    - destruct (Z.ltb_spec (32 - s) 32); [|lia]. split.
      + rewrite Z.shiftr_div_pow2 by lia. split.
        * apply Z.div_pos; [lia|apply Z.pow_pos_nonneg; lia].
        * apply Z.div_lt_upper_bound; [apply Z.pow_pos_nonneg; lia|].
          assert (0 < 2 ^ (32 - s)) by (apply Z.pow_pos_nonneg; lia). nia.
      + intros p Hp. rewrite Z.shiftr_spec by lia. f_equal. lia. }
  set (words1 := <[Z.to_nat idx := Z.lor w0 retLo]> words).
  assert (words_ok words1) as Hok1
    by (apply words_ok_insert; [assumption|now apply lor_word_range]).
  assert (length words1 = length words) as Hlen1 by apply length_insert.
  (* the bit-level effect of the first store *)
  assert (forall k p, 0 <= k -> 0 <= p < 32 ->
            Z.testbit (default 0 (words1 !! Z.to_nat k)) p
            = Z.testbit (default 0 (words !! Z.to_nat k)) p
              || ((k =? idx) && Z.testbit value (p - s))) as Hb1.
  { intros k p Hk Hp. subst words1.
    destruct (Z.eqb_spec k idx) as [->|Hne].
    - rewrite list_lookup_insert_eq, Hw0 by lia. rewrite !default_Some.
      now rewrite Z.lor_spec, HbLo by lia.
    - rewrite list_lookup_insert_ne by lia. now rewrite orb_false_r. }
  destruct (Z.ltb_spec (idx + 1) arraySize) as [Hin|Hout].
  - destruct (lookup_lt_is_Some_2 words1 (Z.to_nat (idx + 1)))
      as [w1 Hw1]; [lia|].
    pose proof (words_ok_lookup words1 (Z.to_nat (idx + 1)) Hok1) as Hr1.
    rewrite Hw1 in Hr1. cbn in Hr1.
    rewrite (or_word_lookup words1 (idx + 1) _ w1 Hw1).
    eexists. split; [reflexivity|].
    split; [now rewrite length_insert|].
    split; [apply words_ok_insert; [assumption|now apply lor_word_range]|].
    intros n Hn.
    pose proof (Z.mod_pos_bound n 32 ltac:(lia)) as Hp.
    pose proof (Z.div_pos n 32 Hn ltac:(lia)) as Hk.
    pose proof (Z.div_mod n 32 ltac:(lia)) as Hn'.
    set (k := n / 32) in *. set (p := n mod 32) in *.
    rewrite Hn', !bit_at_split by lia. rewrite <- Hn'.
    destruct (Z.eq_dec k (idx + 1)) as [->|Hne].
    + rewrite list_lookup_insert_eq by (rewrite Hlen1; lia).
      rewrite default_Some, Z.lor_spec, HbHi by lia.
      pose proof (Hb1 (idx + 1) p ltac:(lia) Hp) as Hb. rewrite Hw1 in Hb.
      rewrite default_Some in Hb. rewrite Hb.
      destruct (Z.eqb_spec (idx + 1) idx); [lia|].
      rewrite andb_false_l, orb_false_r.
      destruct (Z.ltb_spec n (32 * arraySize)); [|lia].
      rewrite andb_true_l. do 2 f_equal. lia.
    + rewrite list_lookup_insert_ne by lia. rewrite Hb1 by lia. f_equal.
      destruct (Z.eqb_spec k idx) as [->|Hne'].
      * destruct (Z.ltb_spec n (32 * arraySize)); [|lia].
        cbn. f_equal. lia.
      * cbn. symmetry. apply andb_false_iff. right.
        apply (field_bit_outside value width); [lia|lia|]. lia.
  - eexists. split; [reflexivity|]. split; [assumption|].
    split; [assumption|].
    intros n Hn.
    pose proof (Z.mod_pos_bound n 32 ltac:(lia)) as Hp.
    pose proof (Z.div_pos n 32 Hn ltac:(lia)) as Hk.
    pose proof (Z.div_mod n 32 ltac:(lia)) as Hn'.
    set (k := n / 32) in *. set (p := n mod 32) in *.
    rewrite Hn', !bit_at_split by lia. rewrite <- Hn'.
    rewrite Hb1 by lia. f_equal.
    destruct (Z.eqb_spec k idx) as [->|Hne'].
    + destruct (Z.ltb_spec n (32 * arraySize)); [|lia].
      cbn. f_equal. lia.
    + cbn. symmetry. apply andb_false_iff.
      destruct (Z.ltb_spec n (32 * arraySize)); [right|now left].
      apply (field_bit_outside value width); [lia|lia|]. lia.
Qed.

(** What [getBitField] returns from an array in use, bit by bit: the
    [width] bits at [offset]; a bit past the array reads as 0. *)
Lemma getBitField_bits {T : Target} arraySize words width offset :
  1 <= width <= 32 -> 0 <= offset ->
  Z.of_nat (length words) = arraySize -> arraySize < 2 ^ 32 ->
  offset / 32 < arraySize -> words_ok words ->
  exists r,
    getBitField arraySize words width offset = Some r
    /\ forall j, 0 <= j ->
         Z.testbit r j = (j <? width) && bit_at words (offset + j).
Proof.
  intros Hw Ho Hlen Ha Hidx Hok.
  pose proof (Z.mod_pos_bound offset 32 ltac:(lia)) as Hs.
  pose proof (Z.div_pos offset 32 Ho ltac:(lia)) as Hi.
  pose proof (Z.div_mod offset 32 ltac:(lia)) as Hdm.
  set (idx := offset / 32) in *. set (s := offset mod 32) in *.
  destruct (lookup_lt_is_Some_2 words (Z.to_nat idx)) as [rawLo HLo]; [lia|].
  pose proof (words_ok_lookup words (Z.to_nat idx) Hok) as HrLo.
  rewrite HLo, default_Some in HrLo.
  set (rawHi := default 0 (words !! Z.to_nat (idx + 1))).
  assert ((if idx + 1 <? arraySize
           then words !! Z.to_nat (idx + 1) else Some 0) = Some rawHi) as EHi.
  { subst rawHi. destruct (Z.ltb_spec (idx + 1) arraySize).
    - destruct (lookup_lt_is_Some_2 words (Z.to_nat (idx + 1))) as [x ->];
        [lia|reflexivity].
    - rewrite lookup_ge_None_2 by lia. reflexivity. }
  (* the two words in terms of [bit_at] *)
  assert (forall p, 0 <= p < 32 ->
            Z.testbit rawLo p = bit_at words (32 * idx + p)) as BLo.
  { intros p Hp. rewrite bit_at_split, HLo by lia. reflexivity. }
  assert (forall p, 0 <= p < 32 ->
            Z.testbit rawHi p = bit_at words (32 * (idx + 1) + p)) as BHi.
  { intros p Hp. rewrite bit_at_split by lia. reflexivity. }
  unfold getBitField. fold idx s. rewrite HLo. cbn [mbind option_bind].
  rewrite (wrap32_small (idx + 1)) by lia. rewrite EHi.
  cbn [mbind option_bind].
  rewrite (wrap32_small (s + width)) by lia.
  rewrite (wrap32_small (32 - s)) by lia.
  eexists. split; [reflexivity|]. intros j Hj.
  rewrite Z.lor_spec, Z.land_spec.
  unfold shr32 at 1. destruct (Z.ltb_spec s 32); [|lia].
  rewrite Z.shiftr_spec by lia.
  destruct (Z.leb_spec (s + width) 32) as [Honly|Hstr].
  - (* one word *)
    rewrite (low_mask_ones 0) by lia. change (Z.ones 0) with 0.
    rewrite Z.land_0_r, shl32_zero, Z.bits_0, orb_false_r.
    assert ((if width =? 32 then wrap32 (-1) else low_mask width)
            = Z.ones width) as ->.
    { destruct (Z.eqb_spec width 32) as [->|]; [reflexivity|].
      apply low_mask_ones. lia. }
    rewrite Z.testbit_ones_nonneg by lia.
    destruct (Z.ltb_spec j width); [|apply andb_false_r].
    rewrite andb_true_r, andb_true_l, BLo by lia. f_equal. lia.
  - (* two words *)
    rewrite (wrap32_small (s + width - 32)) by lia.
    rewrite (low_mask_ones (s + width - 32)) by lia.
    unfold shl32. destruct (Z.ltb_spec (32 - s) 32); [|lia].
    assert (Z.testbit rawLo (j + s)
            && Z.testbit
                 (if width =? 32 then wrap32 (-1) else low_mask (32 - s)) j
            = (j <? 32 - s) && Z.testbit rawLo (j + s)) as ->.
    { destruct (Z.ltb_spec j (32 - s)) as [Hlt|Hge].
      - destruct (Z.eqb_spec width 32).
        + change (wrap32 (-1)) with (Z.ones 32).
          rewrite Z.testbit_ones_nonneg by lia.
          destruct (Z.ltb_spec j 32); [|lia]. apply andb_true_r.
        + rewrite low_mask_ones, Z.testbit_ones_nonneg by lia.
          destruct (Z.ltb_spec j (32 - s)); [|lia]. apply andb_true_r.
      - rewrite (testbit_above_bound rawLo (j + s)); [reflexivity|lia|].
        split; [lia|]. eapply Z.lt_le_trans; [apply HrLo|].
        apply Z.pow_le_mono_r; lia. }
    unfold wrap32.
    destruct (Z.ltb_spec j (32 - s)) as [Hlt|Hge].
    + rewrite Z.mod_pow2_bits_low, Z.shiftl_spec by lia.
      rewrite (Z.testbit_neg_r _ (j - (32 - s))) by lia.
      rewrite orb_false_r, andb_true_l.
      destruct (Z.ltb_spec j width); [|lia]. rewrite andb_true_l.
      rewrite BLo by lia. f_equal. lia.
    + rewrite andb_false_l, orb_false_l.
      destruct (Z.ltb_spec j width) as [Hin|Hout].
      * rewrite Z.mod_pow2_bits_low, Z.shiftl_spec by lia.
        rewrite Z.land_spec, Z.testbit_ones_nonneg by lia.
        destruct (Z.ltb_spec (j - (32 - s)) (s + width - 32)); [|lia].
        rewrite andb_true_r, andb_true_l, BHi by lia. f_equal. lia.
      * rewrite andb_false_l.
        destruct (Z.ltb_spec j 32).
        -- rewrite Z.mod_pow2_bits_low, Z.shiftl_spec by lia.
           rewrite Z.land_spec, Z.testbit_ones_nonneg by lia.
           destruct (Z.ltb_spec (j - (32 - s)) (s + width - 32)); [lia|].
           apply andb_false_r.
        -- apply Z.mod_pow2_bits_high. lia.
Qed.

(** X17.  [setBitField] on an array in use, with a value that fits the
    field: the call returns, the array keeps its size, and bit [n] of the
    array afterwards is its bit before ORed with bit [n - offset] of the
    value; every bit outside the field is unchanged.  The aligned 32-bit
    field is covered where the target's [value >> 32] is 0. *)
Theorem setBitField_ors_the_field {T : Target}
    (arraySize : Z) (words : list Z) (width offset value : Z) :
  1 <= width <= 32 -> 0 <= value < 2 ^ width -> 0 <= offset ->
  Z.of_nat (length words) = arraySize -> arraySize < 2 ^ 32 ->
  offset / 32 < arraySize -> words_ok words ->
  (width = 32 -> offset mod 32 = 0 -> shr_over value 32 = 0) ->
  exists words',
    setBitField arraySize words width offset value = Some words'
    /\ length words' = length words
    /\ words_ok words'
    /\ (forall n, 0 <= n < 32 * arraySize ->
          bit_at words' n = bit_at words n || Z.testbit value (n - offset))
    /\ (forall n, 0 <= n -> n < offset \/ offset + width <= n ->
          bit_at words' n = bit_at words n).
Proof.
  intros Hw Hv Ho Hlen Ha Hidx Hok H32.
  destruct (setBitField_bits arraySize words width offset value)
    as (words' & E & Hl & Hok' & Hb); try assumption.
  exists words'. split; [assumption|]. split; [assumption|].
  split; [assumption|]. split.
  - intros n Hn. rewrite Hb by lia.
    destruct (Z.ltb_spec n (32 * arraySize)); [reflexivity|lia].
  - intros n Hn Hout. rewrite Hb by lia.
    rewrite (field_bit_outside value width) by lia.
    now rewrite andb_false_r, orb_false_r.
Qed.

Lemma setBitField_ors_the_field_witness :
  exists words',
    setBitField (T := gcc_x86) 2 [5; 0] 8 28 255 = Some words'
    /\ length words' = length [5; 0].
Proof.
  destruct (setBitField_ors_the_field (T := gcc_x86) 2 [5; 0] 8 28 255)
    as (words' & E & Hl & _).
  - lia.
  - lia.
  - lia.
  - reflexivity.
  - lia.
  - vm_compute. reflexivity.
  - repeat constructor; lia.
  - intros H. discriminate H.
  - exists words'. split; assumption.
Defined.

(** X18.  [getBitField] on an array in use returns the [width] bits that
    start at [offset]: bit [j] of the result is bit [offset + j] of the array
    for [j < width] and 0 above; a bit past the end of the array counts
    as 0. *)
Theorem getBitField_reads_the_field {T : Target}
    (arraySize : Z) (words : list Z) (width offset : Z) :
  1 <= width <= 32 -> 0 <= offset ->
  Z.of_nat (length words) = arraySize -> arraySize < 2 ^ 32 ->
  offset / 32 < arraySize -> words_ok words ->
  exists r,
    getBitField arraySize words width offset = Some r
    /\ 0 <= r < 2 ^ width
    /\ forall j, 0 <= j ->
         Z.testbit r j = (j <? width) && bit_at words (offset + j).
Proof.
  intros Hw Ho Hlen Ha Hidx Hok.
  destruct (getBitField_bits arraySize words width offset)
    as (r & E & Hb); try assumption.
  exists r. split; [assumption|]. split; [|assumption].
  assert (r = r mod 2 ^ width) as ->.
  { apply Z.bits_inj'. intros j Hj.
    destruct (Z.ltb_spec j width) as [Hlt|Hge].
    - now rewrite Z.mod_pow2_bits_low by lia.
    - rewrite Z.mod_pow2_bits_high, Hb by lia.
      destruct (Z.ltb_spec j width); [lia|reflexivity]. }
  apply Z.mod_pos_bound. apply Z.pow_pos_nonneg; lia.
Qed.

Lemma getBitField_reads_the_field_witness :
  exists r, getBitField (T := gcc_x86) 2 [4026531845; 15] 8 28 = Some r
            /\ 0 <= r < 2 ^ 8.
Proof.
  destruct (getBitField_reads_the_field (T := gcc_x86) 2 [4026531845; 15] 8 28)
    as (r & E & Hr & _).
  - lia.
  - lia.
  - reflexivity.
  - lia.
  - vm_compute. reflexivity.
  - repeat constructor; lia.
  - exists r. split; assumption.
Defined.





(** ** Vertices against primitives *)

Lemma first_use_length l : (length (first_use l) <= length l)%nat.
Proof.
  induction l as [|x l IH]; [reflexivity|].
  cbn [first_use length].
  pose proof (length_filter (fun y => y <> x) (first_use l)). lia.
Qed.

Lemma corners_length ts : length (corners ts) = (3 * length ts)%nat.
Proof.
  unfold corners. induction ts as [|[[a b] c] ts IH]; [reflexivity|].
  cbn [map concat length app] in *. rewrite IH. lia.
Qed.

Lemma corners_elem_of ts a b c :
  (a, b, c) ∈ ts -> a ∈ corners ts /\ b ∈ corners ts /\ c ∈ corners ts.
Proof.
  unfold corners. induction ts as [|[[a' b'] c'] ts IH]; intros Hin.
  - inversion Hin.
  - cbn [map concat]. rewrite !elem_of_app.
    apply elem_of_cons in Hin as [E|Hin].
    + injection E as -> -> ->.
      split; [|split]; left; rewrite !elem_of_cons; auto.
    + destruct (IH Hin) as (? & ? & ?). auto.
Qed.

(** X21.  In every cache of a checked run from [reset] the held vertices
    number at most three per accepted triangle, and at least three as soon
    as one triangle is held. *)
Theorem vertex_count_against_rows {T : Target}
    (k : Check) (st0 : PrimitiveCache) (ts : list triangle)
    (st : PrimitiveCache) :
  k <> NoCheck ->
  length (primitives st0) = Z.to_nat MAX_PRIMITIVE_COUNT_LIMIT ->
  0 <= maxVertexSize st0 <= MAX_VERTEX_COUNT_LIMIT ->
  0 <= maxPrimitiveSize st0 <= MAX_PRIMITIVE_COUNT_LIMIT ->
  run k (reset st0) ts st ->
  numVertices st <= 3 * numPrims st
  /\ (1 <= numPrims st -> 3 <= numVertices st).
Proof.
  intros Hk Hlen Hmv Hmp Hrun.
  destruct (run_invariant k (reset st0) ts st)
    as (Hwf & _ & _ & Hn & Hh & _); try assumption; try reflexivity.
  { now apply reset_well_formed. }
  pose proof (held_length st (well_formed_vertices_ok st Hwf)) as Hl.
  destruct Hwf as (_ & Hnv & _).
  pose proof (first_use_length (corners (kept ts))) as Hle.
  rewrite corners_length, <- Hh in Hle.
  split; [lia|]. intros Hone.
  destruct (kept ts) as [|[[a b] c] rest] eqn:Ek; [cbn in Hn; lia|].
  assert ((a, b, c) ∈ kept ts) as Hin by (rewrite Ek; apply list_elem_of_here).
  assert (nondegenerate (a, b, c)) as Hnd.
  { unfold kept in Hin. now apply list_elem_of_filter in Hin as [? _]. }
  cbn in Hnd. apply degenerate_false in Hnd as (Hab & Hac & Hbc).
  rewrite <- Ek in Hh.
  destruct (corners_elem_of (kept ts) a b c Hin) as (Ha & Hb & Hc).
  assert ([a; b; c] ⊆+ held st) as Hsub.
  { apply NoDup_submseteq.
    - repeat constructor; rewrite ?elem_of_cons, ?elem_of_nil; tauto.
    - intros x Hx. rewrite Hh. apply first_use_elem_of.
      rewrite !elem_of_cons, elem_of_nil in Hx.
      destruct Hx as [->|[->|[->|[]]]]; assumption. }
  apply submseteq_length in Hsub. cbn in Hsub. lia.
Qed.

Lemma vertex_count_against_rows_witness :
  exists st,
    feed (T := gcc_x86) CapacityOnly (reset unbudgeted_cache)
      [(0, 1, 2); (2, 1, 3)] = Some st
    /\ numVertices st <= 3 * numPrims st
    /\ (1 <= numPrims st -> 3 <= numVertices st).
Proof.
  eexists. split; [vm_compute; reflexivity|].
  eapply (vertex_count_against_rows (T := gcc_x86) CapacityOnly
            unbudgeted_cache [(0, 1, 2); (2, 1, 3)]).
  - discriminate.
  - reflexivity.
  - vm_compute. split; discriminate.
  - vm_compute. split; discriminate.
  - apply feed_run. vm_compute. reflexivity.
Defined.
